(** * Resilient delivery pipeline of the Feishu channel plugin

    A shallow embedding of the TypeScript sources

      - [src/webhook.ts]             (quota classifier, webhook sender)
      - [src/image-host.ts]          (image host multiplexer)
      - [src/send-media-fallback.ts] (media delivery orchestrator)
      - [src/outbound.ts]            (outbound facade)
      - the typing indicator module  (add / remove typing indicator)

    Asynchronous functions are embedded as finite interaction trees over the
    external calls they perform (HTTP requests, platform API calls, file
    system reads, the process-wide typing registry); [try]/[catch] is a
    combinator on those trees.  Logging statements ([console.log],
    [runtime.log]) have no influence on control flow and are left out. *)

From Stdlib Require Import Ascii ZArith Lia Bool List DecimalString.
From stdpp Require Import base gmap sets strings.

(** ** JavaScript strings and values *)

Module Js.

(** Strings are sequences of bytes (the UTF-8 form of the JavaScript string).
    [toLowerCase] is embedded on the ASCII range, which is where every
    pattern the sources look for lives; [trim] and [replace] are embedded
    in full. *)

Definition startsWith (p s : string) : bool := String.prefix p s.

Fixpoint includes (needle s : string) : bool :=
  String.prefix needle s ||
  match s with
  | EmptyString => false
  | String _ s' => includes needle s'
  end.

Definition is_upper (c : ascii) : bool :=
  (65 <=? nat_of_ascii c)%nat && (nat_of_ascii c <=? 90)%nat.

Definition lower_char (c : ascii) : ascii :=
  if is_upper c then ascii_of_nat (nat_of_ascii c + 32) else c.

Fixpoint toLowerCase (s : string) : string :=
  match s with
  | EmptyString => EmptyString
  | String c s' => String (lower_char c) (toLowerCase s')
  end.

(** The white space [trim] strips: the WhiteSpace and LineTerminator code
    points of ECMAScript.  In UTF-8 these are the ASCII characters 9 to 13
    and 32, the two bytes of U+00A0, and the three bytes of U+1680, U+2000
    to U+200A, U+2028, U+2029, U+202F, U+205F, U+3000 and U+FEFF. *)
Definition is_white (c : ascii) : bool :=
  let n := nat_of_ascii c in
  ((9 <=? n)%nat && (n <=? 13)%nat) || (n =? 32)%nat.

Definition is_white2 (a b : ascii) : bool :=
  (nat_of_ascii a =? 194)%nat && (nat_of_ascii b =? 160)%nat.

Definition is_white3 (a b c : ascii) : bool :=
  let x := nat_of_ascii a in
  let y := nat_of_ascii b in
  let z := nat_of_ascii c in
  ((x =? 225) && (y =? 154) && (z =? 128))%nat
  || ((x =? 226) && (y =? 128)
      && (((128 <=? z) && (z <=? 138)) || (z =? 168) || (z =? 169)
          || (z =? 175)))%nat
  || ((x =? 226) && (y =? 129) && (z =? 159))%nat
  || ((x =? 227) && (y =? 128) && (z =? 128))%nat
  || ((x =? 239) && (y =? 187) && (z =? 191))%nat.

Fixpoint trimStart (s : string) : string :=
  match s with
  | EmptyString => EmptyString
  | String a s1 =>
      if is_white a then trimStart s1
      else
        match s1 with
        | EmptyString => s
        | String b s2 =>
            if is_white2 a b then trimStart s2
            else
              match s2 with
              | EmptyString => s
              | String c s3 => if is_white3 a b c then trimStart s3 else s
              end
        end
  end.

(** [trimStart] on the reversed string: the bytes of a code point come in
    the opposite order. *)
Fixpoint trimStart_reversed (s : string) : string :=
  match s with
  | EmptyString => EmptyString
  | String a s1 =>
      if is_white a then trimStart_reversed s1
      else
        match s1 with
        | EmptyString => s
        | String b s2 =>
            if is_white2 b a then trimStart_reversed s2
            else
              match s2 with
              | EmptyString => s
              | String c s3 =>
                  if is_white3 c b a then trimStart_reversed s3 else s
              end
        end
  end.

Definition trimEnd (s : string) : string :=
  String.rev (trimStart_reversed (String.rev s)).

Definition trim (s : string) : string := trimEnd (trimStart s).

Fixpoint drop_chars (n : nat) (s : string) : string :=
  match n, s with
  | O, _ => s
  | S n', String _ s' => drop_chars n' s'
  | S _, EmptyString => EmptyString
  end.

(** The replacement text of [s.replace(pat, rep)] for a string pattern
    (GetSubstitution without captures): in [rep], [$$] stands for a dollar
    sign, [$&] for the matched text, [$`] for the text before the match and
    [$'] for the text after it; any other character stands for itself. *)
Fixpoint get_substitution (matched before after rep : string) : string :=
  match rep with
  | EmptyString => EmptyString
  | String c r =>
      if Ascii.eqb c "$" then
        match r with
        | EmptyString => String c EmptyString
        | String d r' =>
            if Ascii.eqb d "$" then
              String "$" (get_substitution matched before after r')
            else if Ascii.eqb d "&" then
              matched +:+ get_substitution matched before after r'
            else if Ascii.eqb d "`" then
              before +:+ get_substitution matched before after r'
            else if Ascii.eqb d "'" then
              after +:+ get_substitution matched before after r'
            else String c (get_substitution matched before after r)
        end
      else String c (get_substitution matched before after r)
  end.

(** [s.replace(pat, rep)] with a string pattern: the first occurrence only;
    [before] is the text already passed. *)
Fixpoint replace_from (pat rep before s : string) : string :=
  if String.prefix pat s then
    get_substitution pat before (drop_chars (String.length pat) s) rep
    +:+ drop_chars (String.length pat) s
  else match s with
       | EmptyString => EmptyString
       | String c s' =>
           String c (replace_from pat rep (before +:+ String c EmptyString) s')
       end.

Definition replace_first (pat rep s : string) : string :=
  replace_from pat rep EmptyString s.

(** Decimal rendering of integers, as in template literals. *)
Definition string_of_Z (z : Z) : string := NilZero.string_of_int (Z.to_int z).

(** The values an [unknown] error can be.  [VInt] stands for the integral
    numbers (printed in plain decimal), [VError] for [Error] objects and
    their subclasses, [VObject] for any other truthy value (an object, a
    symbol, a number with a fraction), given by its string form. *)
Inductive value : Type :=
| VUndefined
| VNull
| VBool (b : bool)
| VNaN
| VInt (z : Z)
| VString (s : string)
| VError (name message : string)
| VObject (repr : string).

Definition truthy (v : value) : bool :=
  match v with
  | VUndefined | VNull | VNaN => false
  | VBool b => b
  | VInt z => negb (z =? 0)%Z
  | VString s => negb (String.eqb s EmptyString)
  | VError _ _ | VObject _ => true
  end.

(** [String(v)]; for an [Error] this is [Error.prototype.toString]. *)
Definition to_string (v : value) : string :=
  match v with
  | VUndefined => "undefined"
  | VNull => "null"
  | VBool true => "true"
  | VBool false => "false"
  | VNaN => "NaN"
  | VInt z => string_of_Z z
  | VString s => s
  | VError name msg =>
      if String.eqb name EmptyString then msg
      else if String.eqb msg EmptyString then name
      else name +:+ ": " +:+ msg
  | VObject repr => repr
  end.

(** [e.message] read off a caught value, inside a template literal. *)
Definition message_of (v : value) : string :=
  match v with
  | VError _ msg => msg
  | _ => "undefined"
  end.

(** [new Error(msg)] *)
Definition mkError (msg : string) : value := VError "Error" msg.

(** Truthiness of an optional string ([undefined] or a string). *)
Definition truthy_str (o : option string) : bool :=
  match o with
  | Some s => negb (String.eqb s EmptyString)
  | None => false
  end.

End Js.

(** ** External calls and asynchronous programs *)

Module Eff.
Import Js.

(** A [Buffer] is its sequence of bytes. *)
Definition Buffer : Type := string.

(** [FeishuSendResult] of types.ts, as the sources build and return it. *)
Record FeishuSendResult : Type :=
  { messageId : string; chatId : string }.

(** JSON documents handed to [JSON.stringify]. *)
#[warnings="-register-all"]
Inductive json : Type :=
| JString (s : string)
| JBool (b : bool)
| JArray (items : list json)
| JObject (fields : list (string * json)).

Inductive form_part : Type :=
| FormText (s : string)
| FormBlob (data : Buffer) (mime filename : string).

(** The three shapes of HTTP request the sources issue through [fetch]:
    a plain GET, a POST with a JSON body and the JSON content type, and a
    POST with a multipart form. *)
Inductive request : Type :=
| GET
| POST_JSON (body : json)
| POST_FORM (form : list (string * form_part)).

(** [WebhookResponse] of webhook.ts. *)
Record WebhookResponse : Type :=
  { code : Z; msg : option string }.

(** What a settled [fetch] gives: the status line, the body as
    [response.text()] / [response.arrayBuffer()] return it, and the outcome
    of [response.json()] (which throws on a body that is not JSON). *)
Record response : Type :=
  { ok : bool;
    status : Z;
    statusText : string;
    body : string;
    json_body : value + WebhookResponse }.

(** The external calls, indexed by what they answer.  A call that can throw
    or reject answers [inl] of the thrown value.  The configuration [cfg]
    an API call receives is the one of the request and is not repeated. *)
Inductive call : Type -> Type :=
| Fetch (url : string) (req : request) : call (value + response)
| ExistsSync (path : string) : call bool
| ReadFileSync (path : string) : call (value + Buffer)
| SendMediaFeishu (to mediaUrl : string) : call (value + FeishuSendResult)
| UploadImageFeishu (image : Buffer) : call (value + string)
| SendMessageFeishuWithFallback (to text : string)
    : call (value + FeishuSendResult)
| ReactionCreate (message_id emoji_type : string)
    : call (value + option string)
| ReactionDelete (message_id reaction_id : string) : call (value + unit)
| RegistryHas (m : string) : call bool
| RegistryAdd (m : string) : call unit.

(** An asynchronous function body: it returns, throws, or performs a call
    and continues with the answer. *)
Inductive prog (R : Type) : Type :=
| Ret (r : R)
| Throw (e : value)
| Vis {X : Type} (c : call X) (k : X -> prog R).

Arguments Ret {R} r.
Arguments Throw {R} e.
Arguments Vis {R X} c k.

Fixpoint bind {A B : Type} (p : prog A) (f : A -> prog B) : prog B :=
  match p with
  | Ret a => f a
  | Throw e => Throw e
  | Vis c k => Vis c (fun x => bind (k x) f)
  end.

(** [try { p } catch (e) { h e }] *)
Fixpoint try_catch {A : Type} (p : prog A) (h : value -> prog A) : prog A :=
  match p with
  | Ret a => Ret a
  | Throw e => h e
  | Vis c k => Vis c (fun x => try_catch (k x) h)
  end.

(** Rethrow the [inl] answer of a call. *)
Definition lift {A : Type} (r : value + A) : prog A :=
  match r with
  | inl e => Throw e
  | inr a => Ret a
  end.

(** [await c]: perform a call that may reject. *)
Definition perform {A : Type} (c : call (value + A)) : prog A :=
  Vis c lift.

(** A call that cannot throw. *)
Definition ask {A : Type} (c : call A) : prog A := Vis c Ret.

Declare Scope prog_scope.
Delimit Scope prog_scope with prog.
Notation "'let*' x := p 'in' q" := (bind p (fun x => q))
  (at level 10, x name, p at level 200, q at level 200) : prog_scope.
Notation "p ;;; q" := (bind p (fun _ => q))
  (at level 100, q at level 200, right associativity) : prog_scope.

(** *** Running a program against an environment

    The environment answers the [n]-th external call of a run.  The typing
    registry is the process-wide [Set] of the typing indicator module: the
    run threads it, answers [RegistryHas] from it and applies [RegistryAdd]
    to it; those two are not external calls and leave no event. *)

Inductive event : Type :=
| Ev {X : Type} (c : call X).

Definition env : Type := nat -> forall X : Type, call X -> X.

Definition registry : Type := gset string.

Record outcome (R : Type) : Type :=
  { trace : list event; final_registry : registry; result : value + R }.

Arguments trace {R} o.
Arguments final_registry {R} o.
Arguments result {R} o.

Definition is_registry_call {X : Type} (c : call X) : bool :=
  match c with
  | RegistryHas _ | RegistryAdd _ => true
  | _ => false
  end.

(** The answer to one call, and the registry after it. *)
Definition answer {X : Type} (e : env) (n : nat) (reg : registry)
    (c : call X) : X * registry :=
  match c in call T return (T -> X) -> X * registry with
  | RegistryHas m => fun cast => (cast (bool_decide (m ∈ reg)), reg)
  | RegistryAdd m => fun cast => (cast tt, {[m]} ∪ reg)
  | c' => fun cast => (cast (e n _ c'), reg)
  end (fun x => x).

Fixpoint run {R : Type} (e : env) (n : nat) (reg : registry) (p : prog R)
    : outcome R :=
  match p with
  | Ret r => {| trace := []; final_registry := reg; result := inr r |}
  | Throw v => {| trace := []; final_registry := reg; result := inl v |}
  | Vis c k =>
      let a := answer e n reg c in
      if is_registry_call c then run e n (snd a) (k (fst a))
      else
        let o := run e (S n) (snd a) (k (fst a)) in
        {| trace := Ev c :: trace o;
           final_registry := final_registry o;
           result := result o |}
  end.

End Eff.

(** ** Collaborators outside the sources

    [mention.ts], [targets.ts] and [policy.ts] are imported by the sources
    but are not part of them; so is the shape of the channel configuration.
    They are taken as parameters, together with the HOME variable of the
    process environment. *)

Module Policy.

(** The group configuration [resolveFeishuGroupConfig] gives, as far as the
    sources read it. *)
Record FeishuGroupConfig : Type :=
  { webhookUrl : option string }.

Class Platform : Type :=
  { MentionTarget : Type;
    buildMentionedCardContent : list MentionTarget -> string -> string;
    FeishuConfig : Type;
    normalizeFeishuTarget : string -> option string;
    resolveFeishuGroupConfig : FeishuConfig -> string -> option FeishuGroupConfig;
    env_HOME : option string }.

(** [ClawdbotConfig], as far as the sources read it: [cfg.channels?.feishu]. *)
Record ClawdbotConfig `{Platform} : Type :=
  { channels_feishu : option FeishuConfig }.

(** [resolveFeishuGroupConfig({ cfg, groupId })?.webhookUrl] *)
Definition resolveWebhookUrl `{Platform} (feishuCfg : FeishuConfig)
    (groupId : string) : option string :=
  match resolveFeishuGroupConfig feishuCfg groupId with
  | Some groupConfig => webhookUrl groupConfig
  | None => None
  end.

End Policy.

(** ** webhook.ts *)

Module Webhook.
Import Js Eff Policy.
Local Open Scope prog_scope.

(** The object [sendViaWebhook] is called with.  The declared type
    [SendWebhookParams] has the first three fields; the media orchestrator
    also passes [imageKey]. *)
Record SendWebhookParams `{Platform} : Type :=
  { webhookUrl : string;
    text : string;
    mentions : option (list MentionTarget);
    imageKey : option string }.

(** The card envelope around the rendered content. *)
Definition card_payload (content : string) : json :=
  JObject
    [("msg_type", JString "interactive");
     ("card",
      JObject
        [("config", JObject [("wide_screen_mode", JBool true)]);
         ("elements",
          JArray [JObject [("tag", JString "markdown");
                           ("content", JString content)]])])].

Definition render_content `{Platform} (params : SendWebhookParams) : string :=
  match mentions params with
  | Some (m :: ms) => buildMentionedCardContent (m :: ms) (text params)
  | _ => text params
  end.

Definition sendViaWebhook `{Platform} (params : SendWebhookParams)
    : prog unit :=
  let content := render_content params in
  let payload := card_payload content in
  let* response := perform (Fetch (webhookUrl params) (POST_JSON payload)) in
  if negb (ok response) then
    Throw (mkError ("Webhook request failed: " +:+ string_of_Z (status response)
                    +:+ " " +:+ statusText response))
  else
    let* result := lift (json_body response) in
    if negb (code result =? 0)%Z then
      Throw (mkError ("Webhook send failed: " +:+
                      (if truthy_str (msg result)
                       then default EmptyString (msg result)
                       else "code " +:+ string_of_Z (code result))))
    else Ret tt.

Definition isQuotaError (error : value) : bool :=
  if negb (truthy error) then false
  else
    let errorStr := to_string error in
    if includes "429" errorStr then true
    else if includes "99991403" errorStr then true
    else if includes "quota" (toLowerCase errorStr)
            || includes "rate limit" (toLowerCase errorStr) then true
    else false.

End Webhook.

(** ** image-host.ts *)

Module ImageHost.
Import Js Eff.
Local Open Scope prog_scope.

Record ImageHostUploadResult : Type :=
  { url : string; deleteUrl : option string }.

Definition catbox_endpoint : string := "https://catbox.moe/user/api.php".
Definition zerox0_endpoint : string := "https://0x0.st".

Definition catbox_form (buffer : Buffer) : list (string * form_part) :=
  [("reqtype", FormText "fileupload");
   ("fileToUpload", FormBlob buffer "image/png" "image.png")].

Definition zerox0_form (buffer : Buffer) : list (string * form_part) :=
  [("file", FormBlob buffer "image/png" "image.png")].

Definition uploadToCatbox (buffer : Buffer) : prog ImageHostUploadResult :=
  let* response := perform (Fetch catbox_endpoint (POST_FORM (catbox_form buffer))) in
  if negb (ok response) then
    let text := body response in
    Throw (mkError ("catbox upload failed: " +:+ string_of_Z (status response)
                    +:+ " - " +:+ text))
  else
    let url := body response in
    if negb (String.eqb url EmptyString) && startsWith "https://" url then
      Ret {| url := url; deleteUrl := None |}
    else
      Throw (mkError ("catbox upload failed: invalid response - " +:+ url)).

Definition uploadTo0x0 (buffer : Buffer) : prog ImageHostUploadResult :=
  let* response := perform (Fetch zerox0_endpoint (POST_FORM (zerox0_form buffer))) in
  if negb (ok response) then
    let text := body response in
    Throw (mkError ("0x0.st upload failed: " +:+ string_of_Z (status response)
                    +:+ " - " +:+ text))
  else
    let url := body response in
    if negb (String.eqb url EmptyString) && startsWith "https://" (trim url) then
      Ret {| url := trim url; deleteUrl := None |}
    else
      Throw (mkError ("0x0.st upload failed: invalid response - " +:+ url)).

Record service : Type :=
  { name : string; upload : Buffer -> prog ImageHostUploadResult }.

Definition services : list service :=
  [ {| name := "catbox"; upload := uploadToCatbox |};
    {| name := "0x0.st"; upload := uploadTo0x0 |} ].

(** The [for ... of] loop with its [lastError] variable; the statement after
    the loop is the empty-list case. *)
Fixpoint try_services (remaining : list service) (buffer : Buffer)
    (lastError : option value) : prog ImageHostUploadResult :=
  match remaining with
  | [] =>
      Throw (mkError ("All image hosting services failed. Last error: " +:+
                      match lastError with
                      | Some e => message_of e
                      | None => "undefined"
                      end))
  | service :: rest =>
      try_catch
        (let* result := upload service buffer in Ret result)
        (fun error => try_services rest buffer (Some error))
  end.

Definition uploadImageToHost (buffer : Buffer) : prog ImageHostUploadResult :=
  try_services services buffer None.

End ImageHost.

(** ** Node's [path.extname] (POSIX flavour)

    The scan of the Node.js library, from the last character down: [chars]
    holds the characters at the indices [i], [i - 1], ..., [0]. *)

Module Path.

Record scan : Type :=
  { startDot : Z;
    startPart : Z;
    end_ : Z;
    matchedSlash : bool;
    preDotState : Z }.

Definition scan_init : scan :=
  {| startDot := -1; startPart := 0; end_ := -1;
     matchedSlash := true; preDotState := 0 |}.

Definition set_startDot (st : scan) (v : Z) : scan :=
  {| startDot := v; startPart := startPart st; end_ := end_ st;
     matchedSlash := matchedSlash st; preDotState := preDotState st |}.

Definition set_startPart (st : scan) (v : Z) : scan :=
  {| startDot := startDot st; startPart := v; end_ := end_ st;
     matchedSlash := matchedSlash st; preDotState := preDotState st |}.

Definition set_end (st : scan) (v : Z) : scan :=
  {| startDot := startDot st; startPart := startPart st; end_ := v;
     matchedSlash := false; preDotState := preDotState st |}.

Definition set_preDotState (st : scan) (v : Z) : scan :=
  {| startDot := startDot st; startPart := startPart st; end_ := end_ st;
     matchedSlash := matchedSlash st; preDotState := v |}.

Definition see_char (code : ascii) (i : Z) (st : scan) : scan :=
  let st1 := if (end_ st =? -1)%Z then set_end st (i + 1) else st in
  if Ascii.eqb code "."%char then
    if (startDot st1 =? -1)%Z then set_startDot st1 i
    else if negb (preDotState st1 =? 1)%Z then set_preDotState st1 1
    else st1
  else if negb (startDot st1 =? -1)%Z then set_preDotState st1 (-1)
  else st1.

Fixpoint extname_loop (chars : list ascii) (i : Z) (st : scan) : scan :=
  match chars with
  | [] => st
  | code :: before =>
      if Ascii.eqb code "/"%char then
        if negb (matchedSlash st) then set_startPart st (i + 1)
        else extname_loop before (i - 1) st
      else extname_loop before (i - 1) (see_char code i st)
  end.

Definition extname (path : string) : string :=
  let st :=
    extname_loop (rev (String.list_ascii_of_string path))
                 (Z.of_nat (String.length path) - 1) scan_init in
  if (startDot st =? -1)%Z || (end_ st =? -1)%Z || (preDotState st =? 0)%Z
     || ((preDotState st =? 1)%Z && (startDot st =? end_ st - 1)%Z
         && (startDot st =? startPart st + 1)%Z)
  then EmptyString
  else String.substring (Z.to_nat (startDot st))
                        (Z.to_nat (end_ st - startDot st)) path.

End Path.

(** ** send-media-fallback.ts

    [getFeishuRuntime] (runtime.ts, outside the sources) only gives the
    logger; it is taken to return the initialised runtime and is left out
    with the logging. *)

Module MediaFallback.
Import Js Eff Policy Webhook ImageHost.
Local Open Scope prog_scope.

(** The message texts, with the bytes the source file holds. *)
Definition link_prefix : string := "üìé ".
Definition hosted_prefix : string := "üì∑ ÂõæÁâáÈìæÊé•Ôºö".
Definition limited_prefix : string :=
  "‚ö†Ô∏è ÂõæÁâá‰∏ä‰º†ÂèóÈôêÔºåÊöÇÊó∂Êó†Ê≥ïÂèëÈÄÅÂõæÁâá" +:+ String "010" (String "010" "ÂõæÁâáË∑ØÂæÑÔºö").

Definition image_extensions : list string :=
  [".jpg"; ".jpeg"; ".png"; ".gif"; ".webp"; ".bmp"; ".ico"; ".tiff"].

Definition isImage (mediaUrl : string) : bool :=
  let ext := toLowerCase (Path.extname mediaUrl) in
  existsb (String.eqb ext) image_extensions.

Definition is_letter (c : ascii) : bool :=
  let n := nat_of_ascii c in
  ((97 <=? n)%nat && (n <=? 122)%nat) || ((65 <=? n)%nat && (n <=? 90)%nat).

(** [/^[a-zA-Z]:/.test(mediaUrl)] *)
Definition drive_letter (mediaUrl : string) : bool :=
  match mediaUrl with
  | String c (String ":" _) => is_letter c
  | _ => false
  end.

Definition isLocalPath (mediaUrl : string) : bool :=
  startsWith "/" mediaUrl || startsWith "~" mediaUrl || drive_letter mediaUrl.

Definition filePath `{Platform} (mediaUrl : string) : string :=
  if startsWith "~" mediaUrl
  then replace_first "~" (default EmptyString env_HOME) mediaUrl
  else replace_first "file://" EmptyString mediaUrl.

(** The download of the image to a buffer (the first half of the outer
    [try] block). *)
Definition acquire `{Platform} (mediaUrl : string) : prog Buffer :=
  if isLocalPath mediaUrl then
    let* found := ask (ExistsSync (filePath mediaUrl)) in
    if negb found then
      Throw (mkError ("Local file not found: " +:+ filePath mediaUrl))
    else perform (ReadFileSync (filePath mediaUrl))
  else
    let* response := perform (Fetch mediaUrl GET) in
    if negb (ok response) then
      Throw (mkError ("Failed to fetch image from URL: "
                      +:+ string_of_Z (status response)))
    else Ret (body response).

Definition webhook_sent (chatId : string) : FeishuSendResult :=
  {| messageId := "webhook-sent"; chatId := chatId |}.

Definition text_params `{Platform} (webhookUrl text : string)
    : SendWebhookParams :=
  {| Webhook.webhookUrl := webhookUrl; Webhook.text := text;
     mentions := None; imageKey := None |}.

Definition image_params `{Platform} (webhookUrl key : string)
    : SendWebhookParams :=
  {| Webhook.webhookUrl := webhookUrl; Webhook.text := EmptyString;
     mentions := None; imageKey := Some key |}.

(** The [catch (uploadError)] block. *)
Definition on_upload_error `{Platform} (webhookUrl chatId mediaUrl : string)
    (buffer : Buffer) (uploadError : value) : prog FeishuSendResult :=
  let isQuotaErr := isQuotaError uploadError in
  let* imageUrl :=
    (if isQuotaErr then
       try_catch
         (let* result := uploadImageToHost buffer in Ret (Some (url result)))
         (fun hostError => Ret None)
     else Ret None) in
  let fallbackText :=
    if truthy_str imageUrl then hosted_prefix +:+ default EmptyString imageUrl
    else if isQuotaErr then limited_prefix +:+ mediaUrl
    else link_prefix +:+ mediaUrl in
  sendViaWebhook (text_params webhookUrl fallbackText) ;;;
  Ret (webhook_sent chatId).

(** The image branch: the outer [try] / [catch (outerError)]. *)
Definition image_fallback `{Platform} (webhookUrl chatId mediaUrl : string)
    : prog FeishuSendResult :=
  try_catch
    (let* buffer := acquire mediaUrl in
     try_catch
       (let* key := perform (UploadImageFeishu buffer) in
        sendViaWebhook (image_params webhookUrl key) ;;;
        Ret (webhook_sent chatId))
       (on_upload_error webhookUrl chatId mediaUrl buffer))
    (fun outerError =>
       sendViaWebhook (text_params webhookUrl (link_prefix +:+ mediaUrl)) ;;;
       Ret (webhook_sent chatId)).

Definition no_webhook_message (error : value) (chatId : string) : string :=
  "Feishu API quota exceeded (" +:+ to_string error
  +:+ "). No webhook configured for fallback. "
  +:+ "Add webhookUrl to channels.feishu.groups[" +:+ String "034" chatId
  +:+ String "034" "].webhookUrl in config.".

(** The [catch (error)] block of the primary send. *)
Definition on_primary_error `{Platform} (feishuCfg : FeishuConfig)
    (chatId mediaUrl : string) (error : value) : prog FeishuSendResult :=
  if negb (isQuotaError error) then Throw error
  else
    let webhookUrl := resolveWebhookUrl feishuCfg chatId in
    if negb (truthy_str webhookUrl) then
      Throw (mkError (no_webhook_message error chatId))
    else
      let webhookUrl := default EmptyString webhookUrl in
      if negb (isImage mediaUrl) then
        sendViaWebhook (text_params webhookUrl (link_prefix +:+ mediaUrl)) ;;;
        Ret (webhook_sent chatId)
      else image_fallback webhookUrl chatId mediaUrl.

Definition sendMediaFeishuWithFallback `{Platform} (cfg : ClawdbotConfig)
    (to mediaUrl : string) : prog FeishuSendResult :=
  match channels_feishu cfg with
  | None => Throw (mkError "Feishu channel not configured")
  | Some feishuCfg =>
      let chatId := normalizeFeishuTarget to in
      if negb (truthy_str chatId) then
        Throw (mkError ("Invalid Feishu target: " +:+ to))
      else
        let chatId := default EmptyString chatId in
        try_catch
          (perform (SendMediaFeishu to mediaUrl))
          (on_primary_error feishuCfg chatId mediaUrl)
  end.

End MediaFallback.

(** ** outbound.ts *)

Module Outbound.
Import Js Eff Policy.
Local Open Scope prog_scope.

(** [{ channel: "feishu", ...result }] *)
Record OutboundResult : Type :=
  { channel : string; messageId : string; chatId : string }.

Definition feishu_result (r : FeishuSendResult) : OutboundResult :=
  {| channel := "feishu";
     messageId := Eff.messageId r;
     chatId := Eff.chatId r |}.

Definition link_prefix : string := "📎 ".

(** [text?.trim()] as a condition *)
Definition has_text (text : option string) : bool :=
  match text with
  | Some t => negb (String.eqb (trim t) EmptyString)
  | None => false
  end.

(** [feishuOutbound.sendMedia]; [sendMessageFeishuWithFallback] is the text
    delivery path of send.ts, an external call here. *)
Definition sendMedia `{Platform} (cfg : ClawdbotConfig) (to : string)
    (text mediaUrl : option string) : prog OutboundResult :=
  (if has_text text then
     perform (SendMessageFeishuWithFallback to (default EmptyString text)) ;;;
     Ret tt
   else Ret tt) ;;;
  if truthy_str mediaUrl then
    let mediaUrl := default EmptyString mediaUrl in
    try_catch
      (let* result :=
         MediaFallback.sendMediaFeishuWithFallback cfg to mediaUrl in
       Ret (feishu_result result))
      (fun err =>
         let fallbackText := link_prefix +:+ mediaUrl in
         let* result := perform (SendMessageFeishuWithFallback to fallbackText) in
         Ret (feishu_result result))
  else
    let* result :=
      perform (SendMessageFeishuWithFallback to (default EmptyString text)) in
    Ret (feishu_result result).

(** [feishuOutbound.sendText] *)
Definition sendText `{Platform} (cfg : ClawdbotConfig) (to text : string)
    : prog OutboundResult :=
  let* result := perform (SendMessageFeishuWithFallback to text) in
  Ret (feishu_result result).

(** [textChunkLimit] *)
Definition textChunkLimit : Z := 4000.

End Outbound.

(** ** The typing indicator module *)

Module Typing.
Import Js Eff Policy Webhook.
Local Open Scope prog_scope.

Definition TYPING_EMOJI : string := "Typing".

Definition ack_glyph : string := "👀".

Record TypingIndicatorState : Type :=
  { messageId : string;
    reactionId : option string;
    usedWebhook : option bool }.

Definition no_reaction (messageId : string) : TypingIndicatorState :=
  {| messageId := messageId; reactionId := None; usedWebhook := None |}.

(** The webhook branch of the [catch (err)] block.  [Some] is its [return];
    [None] means control falls through to the end of the block. *)
Definition webhook_ack `{Platform} (feishuCfg : FeishuConfig)
    (messageId : string) (chatId : option string) (err : value)
    : prog (option TypingIndicatorState) :=
  if isQuotaError err && truthy_str chatId then
    let normalizedChatId := normalizeFeishuTarget (default EmptyString chatId) in
    if truthy_str normalizedChatId then
      let webhookUrl :=
        resolveWebhookUrl feishuCfg (default EmptyString normalizedChatId) in
      if truthy_str webhookUrl then
        try_catch
          (sendViaWebhook
             {| Webhook.webhookUrl := default EmptyString webhookUrl;
                text := ack_glyph; mentions := None; imageKey := None |} ;;;
           ask (RegistryAdd messageId) ;;;
           Ret (Some {| messageId := messageId; reactionId := None;
                        usedWebhook := Some true |}))
          (fun webhookErr => Ret None)
      else Ret None
    else Ret None
  else Ret None.

(** [createFeishuClient] (client.ts, outside the sources) is taken to build
    the client object without failing; the calls made through the client
    are [ReactionCreate] and [ReactionDelete]. *)
Definition addTypingIndicator `{Platform} (cfg : ClawdbotConfig)
    (messageId : string) (chatId : option string)
    : prog TypingIndicatorState :=
  let* seen := ask (RegistryHas messageId) in
  if seen then Ret (no_reaction messageId)
  else
    match channels_feishu cfg with
    | None => Ret (no_reaction messageId)
    | Some feishuCfg =>
        try_catch
          (let* reactionId := perform (ReactionCreate messageId TYPING_EMOJI) in
           ask (RegistryAdd messageId) ;;;
           Ret {| messageId := messageId; reactionId := reactionId;
                  usedWebhook := None |})
          (fun err =>
             let* sent := webhook_ack feishuCfg messageId chatId err in
             match sent with
             | Some state => Ret state
             | None => Ret (no_reaction messageId)
             end)
    end.

Definition removeTypingIndicator `{Platform} (cfg : ClawdbotConfig)
    (state : TypingIndicatorState) : prog unit :=
  if negb (truthy_str (reactionId state)) then Ret tt
  else
    match channels_feishu cfg with
    | None => Ret tt
    | Some feishuCfg =>
        try_catch
          (perform (ReactionDelete (messageId state)
                                   (default EmptyString (reactionId state))))
          (fun err => Ret tt)
    end.

End Typing.

(** ** Specification vocabulary *)

Module Spec.
Import Js Eff.

(** [needle] occurs in [s]. *)
Definition Contains (needle s : string) : Prop :=
  exists pre post, s = pre +:+ needle +:+ post.

(** [needle] occurs in [s] up to the case of ASCII letters. *)
Definition ContainsCI (needle s : string) : Prop :=
  exists pre mid post,
    s = pre +:+ mid +:+ post /\ toLowerCase mid = toLowerCase needle.

(** [s] ends with [suffix]. *)
Definition EndsWith (suffix s : string) : Prop :=
  exists pre, s = pre +:+ suffix.

(** Every run of [p] that returns passed a call satisfying [P] before. *)
Fixpoint returns_after {R : Type} (P : event -> Prop) (p : prog R) : Prop :=
  match p with
  | Ret _ => False
  | Throw _ => True
  | Vis c k =>
      (is_registry_call c = false /\ P (Ev c)) \/ forall x, returns_after P (k x)
  end.

(** Every run of [p], returning or throwing, passed a call satisfying [P]. *)
Fixpoint exits_after {R : Type} (P : event -> Prop) (p : prog R) : Prop :=
  match p with
  | Ret _ | Throw _ => False
  | Vis c k =>
      (is_registry_call c = false /\ P (Ev c)) \/ forall x, exits_after P (k x)
  end.

(** No run of [p] ends in an exception. *)
Fixpoint never_throws {R : Type} (p : prog R) : Prop :=
  match p with
  | Ret _ => True
  | Throw _ => False
  | Vis c k => forall x, never_throws (k x)
  end.

(** The four indicators the quota classifier looks for. *)
Definition quota_text (s : string) : Prop :=
  Contains "429" s \/ Contains "99991403" s
  \/ ContainsCI "quota" s \/ ContainsCI "rate limit" s.

(** The event is an HTTP POST of a JSON document to [url]. *)
Definition is_post_to (url : string) (ev : event) : Prop :=
  exists payload, ev = Ev (Fetch url (POST_JSON payload)).

(** Characters that are neither a path separator nor a dot, and strings
    made of them. *)
Definition plain_char (ch : ascii) : Prop := ch <> "/"%char /\ ch <> "."%char.

Definition plain (s : string) : Prop :=
  Forall plain_char (String.list_ascii_of_string s).

(** The state of the [path.extname] scan once the end of the last segment
    is fixed and before any dot is seen. *)
Definition ended (E : Z) : Path.scan :=
  {| Path.startDot := -1; Path.startPart := 0; Path.end_ := E;
     Path.matchedSlash := false; Path.preDotState := 0 |}.

(** The first call of the image acquisition. *)
Definition first_acquisition `{Policy.Platform} (mediaUrl : string) : event :=
  if MediaFallback.isLocalPath mediaUrl
  then Ev (ExistsSync (MediaFallback.filePath mediaUrl))
  else Ev (Fetch mediaUrl GET).

(** The answer to a webhook POST that [sendViaWebhook] takes as success:
    an HTTP success whose JSON body has the code 0. *)
Definition webhook_accepts (a : value + response) : bool :=
  match a with
  | inr r =>
      ok r && match json_body r with
              | inr w => (code w =? 0)%Z
              | inl _ => false
              end
  | inl _ => false
  end.

(** The [k]-th call of a run was a send, and it was answered with success:
    the reaction was created, or the webhook took the card. *)
Definition answered_ok (e : env) (k : nat) (ev : event) : bool :=
  match ev with
  | Ev (ReactionCreate m t) =>
      match e k _ (ReactionCreate m t) with inr _ => true | inl _ => false end
  | Ev (Fetch url (POST_JSON payload)) =>
      webhook_accepts (e k _ (Fetch url (POST_JSON payload)))
  | _ => false
  end.




(** Every call a run of [p] can perform satisfies [Q]. *)
Fixpoint all_calls {R : Type} (Q : event -> Prop) (p : prog R) : Prop :=
  match p with
  | Ret _ | Throw _ => True
  | Vis c k => Q (Ev c) /\ forall x, all_calls Q (k x)
  end.

(** The event is no POST of a JSON document. *)
Definition not_a_post (ev : event) : Prop :=
  forall url, ~ is_post_to url ev.

(** In a run that started at call number [n], a JSON POST that was taken
    (HTTP success, code 0) is the last call of the run, and the run returns
    [r]. *)
Definition accepted_post_is_final {R : Type} (e : env) (n : nat) (r : R)
    (o : outcome R) : Prop :=
  forall tr ev rest url,
    trace o = tr ++ ev :: rest ->
    is_post_to url ev ->
    answered_ok e (n + length tr) ev = true ->
    rest = [] /\ result o = inr r.

(** In a run that started at call number [n], a normal return means that
    the last call was a JSON POST to [url] and that it was taken. *)
Definition returns_after_accepted_post {R : Type} (e : env) (n : nat)
    (url : string) (o : outcome R) : Prop :=
  forall r, result o = inr r ->
    exists tr ev,
      trace o = tr ++ [ev] /\ is_post_to url ev
      /\ answered_ok e (n + length tr) ev = true.

(** The POST [sendViaWebhook] makes for a text without mentions. *)
Definition text_post (url text : string) : event :=
  Ev (Fetch url (POST_JSON (Webhook.card_payload text))).

(** The lower-case names of the image extensions, without the dot. *)
Definition image_extension_names : list string :=
  ["jpg"; "jpeg"; "png"; "gif"; "webp"; "bmp"; "ico"; "tiff"].

End Spec.

(** ** Concrete scenarios *)

Module Scenario.
Import Js Eff Policy.

(** A platform whose channel configuration lists the webhook URL of each
    group, and whose targets are already normalized. *)
Definition demo_platform : Platform :=
  {| MentionTarget := string;
     buildMentionedCardContent := fun _ text => text;
     FeishuConfig := list (string * string);
     normalizeFeishuTarget :=
       fun to => if String.eqb to EmptyString then None else Some to;
     resolveFeishuGroupConfig :=
       fun groups groupId =>
         match find (fun g => String.eqb (fst g) groupId) groups with
         | Some g => Some {| webhookUrl := Some (snd g) |}
         | None => None
         end;
     env_HOME := Some "/home/bot" |}.

Definition hook : string := "https://open.feishu.cn/hook/1".

(** Three media references: an image, a document, and a file whose whole
    name is [.png]. *)
Definition chart : string := "/tmp/chart.png".
Definition report : string := "/tmp/report.pdf".
Definition hidden_png : string := "/tmp/.png".

Definition cfg_hook : @ClawdbotConfig demo_platform :=
  @Build_ClawdbotConfig demo_platform (Some [("oc_1", hook)]).

Definition cfg_no_hook : @ClawdbotConfig demo_platform :=
  @Build_ClawdbotConfig demo_platform (Some []).

Definition quota_error : value :=
  mkError "Request failed with status code 429".

Definition http_ok (text : string) : response :=
  {| ok := true; status := 200; statusText := "OK"; body := text;
     json_body := inr {| code := 0; msg := Some "success" |} |}.

Definition http_unavailable : response :=
  {| ok := false; status := 503; statusText := "Service Unavailable";
     body := "unavailable";
     json_body := inl (VError "SyntaxError" "Unexpected token") |}.

Definition sent_by_api : FeishuSendResult :=
  {| messageId := "om_1"; chatId := "oc_1" |}.

(** The answers of an environment, by kind of call. *)
Record answers : Type :=
  { on_fetch : string -> request -> value + response;
    on_exists : bool;
    on_read : value + Buffer;
    on_sendMedia : value + FeishuSendResult;
    on_upload : value + string;
    on_sendMessage : value + FeishuSendResult;
    on_create : value + option string;
    on_delete : value + unit }.

Definition env_of (a : answers) : env :=
  fun _ X c =>
    match c in call T return T with
    | Fetch url req => on_fetch a url req
    | ExistsSync _ => on_exists a
    | ReadFileSync _ => on_read a
    | SendMediaFeishu _ _ => on_sendMedia a
    | UploadImageFeishu _ => on_upload a
    | SendMessageFeishuWithFallback _ _ => on_sendMessage a
    | ReactionCreate _ _ => on_create a
    | ReactionDelete _ _ => on_delete a
    | RegistryHas _ => false
    | RegistryAdd _ => tt
    end.

(** The platform API is over quota; the webhook and the network work. *)
Definition quota_answers : answers :=
  {| on_fetch := fun _ _ => inr (http_ok "image-bytes");
     on_exists := true;
     on_read := inr "image-bytes";
     on_sendMedia := inl quota_error;
     on_upload := inl quota_error;
     on_sendMessage := inr sent_by_api;
     on_create := inl quota_error;
     on_delete := inl quota_error |}.

(** Everything works. *)
Definition fine_answers : answers :=
  {| on_fetch := fun _ _ => inr (http_ok "image-bytes");
     on_exists := true;
     on_read := inr "image-bytes";
     on_sendMedia := inr sent_by_api;
     on_upload := inr "img_v2_1";
     on_sendMessage := inr sent_by_api;
     on_create := inr (Some "reaction_1");
     on_delete := inr tt |}.

(** The platform API is over quota and catbox is down; 0x0.st answers with
    a line break before the URL; the webhook works. *)
Definition padded_body : string :=
  String "010" "https://0x0.st/abc.png" +:+ String "010" EmptyString.

Definition padded_answers : answers :=
  {| on_fetch :=
       fun url _ =>
         if String.eqb url ImageHost.zerox0_endpoint
         then inr (http_ok padded_body)
         else if String.eqb url ImageHost.catbox_endpoint
         then inr http_unavailable
         else inr (http_ok "{}");
     on_exists := true;
     on_read := inr "image-bytes";
     on_sendMedia := inl quota_error;
     on_upload := inl quota_error;
     on_sendMessage := inr sent_by_api;
     on_create := inl quota_error;
     on_delete := inl quota_error |}.

(** A configuration without the Feishu channel. *)
Definition cfg_none : @ClawdbotConfig demo_platform :=
  @Build_ClawdbotConfig demo_platform None.

(** Everything works but the text delivery path. *)
Definition text_down_answers : answers :=
  {| on_fetch := fun _ _ => inr (http_ok "image-bytes");
     on_exists := true;
     on_read := inr "image-bytes";
     on_sendMedia := inr sent_by_api;
     on_upload := inr "img_v2_1";
     on_sendMessage := inl (mkError "socket hang up");
     on_create := inr (Some "reaction_1");
     on_delete := inr tt |}.

(** The bot may not react to the message; nothing is over quota. *)
Definition denied_answers : answers :=
  {| on_fetch := fun _ _ => inr (http_ok "image-bytes");
     on_exists := true;
     on_read := inr "image-bytes";
     on_sendMedia := inr sent_by_api;
     on_upload := inr "img_v2_1";
     on_sendMessage := inr sent_by_api;
     on_create := inl (mkError "permission denied");
     on_delete := inl (mkError "permission denied") |}.

(** U+00A0, the no-break space, in UTF-8. *)
Definition nbsp : string := String "194" (String "160" EmptyString).

(** The platform API is over quota and catbox is down; 0x0.st answers with
    a no-break space on both sides of the URL; the webhook works. *)
Definition nbsp_answers : answers :=
  {| on_fetch :=
       fun url _ =>
         if String.eqb url ImageHost.zerox0_endpoint
         then inr (http_ok (nbsp +:+ "https://0x0.st/abc.png" +:+ nbsp))
         else if String.eqb url ImageHost.catbox_endpoint
         then inr http_unavailable
         else inr (http_ok "{}");
     on_exists := true;
     on_read := inr "image-bytes";
     on_sendMedia := inl quota_error;
     on_upload := inl quota_error;
     on_sendMessage := inr sent_by_api;
     on_create := inl quota_error;
     on_delete := inl quota_error |}.

End Scenario.


(** * Properties *)

(** ** Strings *)

Section StringFacts.
Import Js Spec.

Lemma app_cons_s (c : ascii) (a b : string) :
  String c a +:+ b = String c (a +:+ b).
Proof. reflexivity. Qed.

Lemma app_nil_r_s (s : string) : s +:+ EmptyString = s.
Proof.
  induction s as [|c s IH]; [reflexivity|]. now rewrite app_cons_s, IH.
Qed.

Lemma app_assoc_s (a b c : string) : (a +:+ b) +:+ c = a +:+ b +:+ c.
Proof.
  induction a as [|x a IH]; [reflexivity|]. now rewrite !app_cons_s, IH.
Qed.

Lemma prefix_nil (s : string) : String.prefix EmptyString s = true.
Proof. now destruct s. Qed.

Lemma prefix_cons (c d : ascii) (p s : string) :
  String.prefix (String c p) (String d s)
  = if ascii_dec c d then String.prefix p s else false.
Proof. reflexivity. Qed.

Lemma prefix_iff (p s : string) :
  String.prefix p s = true <-> exists post, s = p +:+ post.
Proof.
  revert s. induction p as [|c p IH]; intros s.
  - rewrite prefix_nil. split; [intros _; now exists s | reflexivity].
  - destruct s as [|d s].
    + split; [discriminate | intros [post Hp]; discriminate].
    + rewrite prefix_cons. destruct (ascii_dec c d) as [->|Hne].
      * rewrite IH. split; intros [post Hp]; exists post.
        -- now rewrite app_cons_s, Hp.
        -- rewrite app_cons_s in Hp. now injection Hp.
      * split; [discriminate|].
        intros [post Hp]. rewrite app_cons_s in Hp. injection Hp. congruence.
Qed.

Lemma includes_nil (needle : string) :
  includes needle EmptyString = String.prefix needle EmptyString.
Proof. apply orb_false_r. Qed.

Lemma includes_cons (needle : string) (c : ascii) (s : string) :
  includes needle (String c s)
  = String.prefix needle (String c s) || includes needle s.
Proof. reflexivity. Qed.

Lemma includes_iff (needle s : string) :
  includes needle s = true <-> Contains needle s.
Proof.
  induction s as [|c s IH].
  - rewrite includes_nil, prefix_iff. split.
    + intros [post Hp]. now exists EmptyString, post.
    + intros [[|x pre] [post Hp]]; [now exists post | discriminate].
  - rewrite includes_cons, orb_true_iff, prefix_iff, IH. split.
    + intros [[post Hp] | [pre [post Hp]]].
      * now exists EmptyString, post.
      * exists (String c pre), post. now rewrite app_cons_s, Hp.
    + intros [[|x pre] [post Hp]].
      * left. now exists post.
      * right. rewrite app_cons_s in Hp. injection Hp as _ Hp.
        now exists pre, post.
Qed.

Lemma toLowerCase_app (a b : string) :
  toLowerCase (a +:+ b) = toLowerCase a +:+ toLowerCase b.
Proof.
  induction a as [|c a IH]; [reflexivity|].
  rewrite app_cons_s. simpl. now rewrite app_cons_s, IH.
Qed.

Lemma toLowerCase_split (s a b : string) :
  toLowerCase s = a +:+ b ->
  exists a' b', s = a' +:+ b' /\ toLowerCase a' = a /\ toLowerCase b' = b.
Proof.
  revert s. induction a as [|c a IH]; intros s H.
  - now exists EmptyString, s.
  - destruct s as [|d s]; [discriminate|]. simpl in H.
    rewrite app_cons_s in H. injection H as Hc H.
    destruct (IH _ H) as (a' & b' & -> & <- & <-).
    exists (String d a'), b'. rewrite app_cons_s. simpl. now rewrite Hc.
Qed.

(** Looking for a lower-case needle in the lower-cased string is looking
    for the needle up to case. *)
Lemma includes_lower_iff (needle s : string) :
  toLowerCase needle = needle ->
  includes needle (toLowerCase s) = true <-> ContainsCI needle s.
Proof.
  intros Hn. rewrite includes_iff. split.
  - intros (pre & post & H).
    apply toLowerCase_split in H as (pre' & rest & -> & _ & H).
    apply toLowerCase_split in H as (mid & post' & -> & H & _).
    exists pre', mid, post'. split; [reflexivity | congruence].
  - intros (pre & mid & post & -> & H).
    exists (toLowerCase pre), (toLowerCase post).
    rewrite !toLowerCase_app. congruence.
Qed.

End StringFacts.

(** ** The quota classifier *)

Section QuotaClassifier.
Import Js Spec Webhook.

Lemma quota_scan_iff (s : string) :
  (if includes "429" s then true
   else if includes "99991403" s then true
   else if includes "quota" (toLowerCase s)
           || includes "rate limit" (toLowerCase s) then true
   else false) = true <-> quota_text s.
Proof.
  unfold quota_text.
  rewrite <- (includes_iff "429"), <- (includes_iff "99991403").
  rewrite <- (includes_lower_iff "quota"), <- (includes_lower_iff "rate limit")
    by reflexivity.
  destruct (includes "429" s); [tauto|].
  destruct (includes "99991403" s); [tauto|].
  destruct (includes "quota" (toLowerCase s)); [simpl; tauto|].
  destruct (includes "rate limit" (toLowerCase s)); simpl; [tauto|].
  split; [discriminate | intros [|[|[|]]]; discriminate].
Qed.

(** The string forms of the falsy values carry no indicator. *)
Lemma falsy_no_quota_text (e : value) :
  truthy e = false -> ~ quota_text (to_string e).
Proof.
  intros Hf Hq. apply quota_scan_iff in Hq.
  destruct e as [| |[]| |z|s|nm m|r]; simpl in Hf; try discriminate;
    try (vm_compute in Hq; discriminate).
  - apply negb_false_iff, Z.eqb_eq in Hf. subst z.
    vm_compute in Hq. discriminate.
  - apply negb_false_iff, String.eqb_eq in Hf. subst s.
    vm_compute in Hq. discriminate.
Qed.

(** C5: [isQuotaError] depends on the error only through its string form:
    it is [true] exactly when that string contains ["429"], ["99991403"],
    ["quota"] or ["rate limit"], the last two up to letter case; an error
    whose string form has none of the four is classified [false]. *)
Theorem isQuotaError_iff_quota_text (e : value) :
  isQuotaError e = true <-> quota_text (to_string e).
Proof.
  unfold isQuotaError. destruct (truthy e) eqn:Ht; simpl.
  - apply quota_scan_iff.
  - split; [discriminate|]. intros Hq.
    now apply falsy_no_quota_text in Hq.
Qed.

Example isQuotaError_not_found :
  isQuotaError (mkError "not found") = false.
Proof. reflexivity. Qed.

Example isQuotaError_upper_case :
  isQuotaError (VString "Rate Limit reached: QUOTA") = true.
Proof. reflexivity. Qed.

End QuotaClassifier.

(** ** Programs and their runs *)

Section Programs.
Import Js Eff Spec.
Context {R : Type}.

Lemma exits_returns (P : event -> Prop) (p : prog R) :
  exits_after P p -> returns_after P p.
Proof.
  induction p as [r|v|X c k IH]; simpl; [tauto | tauto |].
  intros [H|H]; [now left | right; intros x; apply IH, H].
Qed.

Lemma returns_bind_l {A : Type} (P : event -> Prop) (p : prog A)
    (f : A -> prog R) :
  returns_after P p -> returns_after P (bind p f).
Proof.
  induction p as [r|v|X c k IH]; simpl; [tauto | tauto |].
  intros [H|H]; [now left | right; intros x; apply IH, H].
Qed.

Lemma returns_bind_r {A : Type} (P : event -> Prop) (p : prog A)
    (f : A -> prog R) :
  (forall a, returns_after P (f a)) -> returns_after P (bind p f).
Proof.
  intros Hf. induction p as [r|v|X c k IH]; simpl; [apply Hf | exact I |].
  right. intros x. apply IH.
Qed.

Lemma exits_bind_l {A : Type} (P : event -> Prop) (p : prog A)
    (f : A -> prog R) :
  exits_after P p -> exits_after P (bind p f).
Proof.
  induction p as [r|v|X c k IH]; simpl; [tauto | tauto |].
  intros [H|H]; [now left | right; intros x; apply IH, H].
Qed.

Lemma exits_bind_r {A : Type} (P : event -> Prop) (p : prog A)
    (f : A -> prog R) :
  never_throws p -> (forall a, exits_after P (f a)) ->
  exits_after P (bind p f).
Proof.
  intros Hp Hf. induction p as [r|v|X c k IH]; simpl in *;
    [apply Hf | contradiction |].
  right. intros x. apply IH, Hp.
Qed.

Lemma exits_try (P : event -> Prop) (p : prog R) (h : value -> prog R) :
  returns_after P p -> (forall e, exits_after P (h e)) ->
  exits_after P (try_catch p h).
Proof.
  intros Hp Hh. induction p as [r|v|X c k IH]; simpl in *;
    [contradiction | apply Hh |].
  destruct Hp as [Hp|Hp]; [now left | right; intros x; apply IH, Hp].
Qed.

Lemma never_throws_try (p : prog R) (h : value -> prog R) :
  (forall e, never_throws (h e)) -> never_throws (try_catch p h).
Proof.
  intros Hh. induction p as [r|v|X c k IH]; simpl; [exact I | apply Hh |].
  intros x. apply IH.
Qed.

(** A program all of whose exits come after a [P]-call leaves a [P]-event
    in the trace of every run. *)
Lemma exits_after_sound (P : event -> Prop) (p : prog R) :
  exits_after P p ->
  forall (e : env) (n : nat) (reg : registry),
    Exists P (trace (run e n reg p)).
Proof.
  induction p as [r|v|X c k IH]; simpl; [tauto | tauto |].
  intros [[Hc HP]|H] e n reg.
  - rewrite Hc. simpl. now constructor.
  - destruct (is_registry_call c); simpl.
    + apply IH, H.
    + apply Exists_cons_tl, IH, H.
Qed.

(** A program that never throws gives a result in every run. *)
Lemma never_throws_sound (p : prog R) :
  never_throws p ->
  forall (e : env) (n : nat) (reg : registry),
    exists r, result (run e n reg p) = inr r.
Proof.
  induction p as [r|v|X c k IH]; simpl; [eauto | tauto |].
  intros H e n reg.
  destruct (is_registry_call c); simpl; apply IH, H.
Qed.

End Programs.

(** ** The webhook sender *)

Section WebhookSender.
Import Js Eff Policy Spec Webhook.
Context `{Platform}.

(** The first thing [sendViaWebhook] does is its POST: every exit comes
    after it. *)
Lemma sendViaWebhook_posts (params : SendWebhookParams) :
  exits_after (is_post_to (webhookUrl params)) (sendViaWebhook params).
Proof.
  unfold sendViaWebhook, perform. simpl. left. split; [reflexivity|].
  now eexists.
Qed.

End WebhookSender.

(** ** The media delivery orchestrator *)

Section MediaOrchestrator.
Import Js Eff Policy Spec Webhook ImageHost MediaFallback.
Context `{Platform}.

Lemma send_then_ret_exits (webhookUrl text chatId : string) :
  exits_after (is_post_to webhookUrl)
    (bind (sendViaWebhook (text_params webhookUrl text))
          (fun _ => Ret (webhook_sent chatId))).
Proof. apply exits_bind_l, (sendViaWebhook_posts (text_params webhookUrl text)). Qed.

Lemma on_upload_error_exits (webhookUrl chatId mediaUrl : string)
    (buffer : Buffer) (uploadError : value) :
  exits_after (is_post_to webhookUrl)
    (on_upload_error webhookUrl chatId mediaUrl buffer uploadError).
Proof.
  unfold on_upload_error. apply exits_bind_r.
  - destruct (isQuotaError uploadError); [|exact I].
    apply never_throws_try. intros e. exact I.
  - intros imageUrl. apply send_then_ret_exits.
Qed.

Lemma image_fallback_exits (webhookUrl chatId mediaUrl : string) :
  exits_after (is_post_to webhookUrl)
    (image_fallback webhookUrl chatId mediaUrl).
Proof.
  unfold image_fallback. apply exits_try.
  - apply returns_bind_r. intros buffer. apply exits_returns, exits_try.
    + apply returns_bind_r. intros key. apply exits_returns, exits_bind_l.
      apply (sendViaWebhook_posts (image_params webhookUrl key)).
    + apply on_upload_error_exits.
  - intros outerError. apply send_then_ret_exits.
Qed.

(** Once the webhook URL is resolved, every exit of the fallback comes
    after a POST to it. *)
Lemma fallback_exits (feishuCfg : FeishuConfig)
    (chatId mediaUrl webhookUrl : string) (error : value) :
  isQuotaError error = true ->
  resolveWebhookUrl feishuCfg chatId = Some webhookUrl ->
  webhookUrl <> EmptyString ->
  exits_after (is_post_to webhookUrl)
    (on_primary_error feishuCfg chatId mediaUrl error).
Proof.
  intros Hq Hw Hne. unfold on_primary_error. rewrite Hq, Hw. simpl.
  apply String.eqb_neq in Hne. rewrite Hne. simpl.
  destruct (isImage mediaUrl); simpl.
  - apply image_fallback_exits.
  - apply send_then_ret_exits.
Qed.

(** The run of the orchestrator up to the failure of the primary send. *)
Lemma run_primary_failure (cfg : ClawdbotConfig) (to mediaUrl : string)
    (feishuCfg : FeishuConfig) (chatId : string)
    (e : env) (n : nat) (reg : registry) (error : value) :
  channels_feishu cfg = Some feishuCfg ->
  normalizeFeishuTarget to = Some chatId ->
  chatId <> EmptyString ->
  e n _ (SendMediaFeishu to mediaUrl) = inl error ->
  let o := run e (S n) reg (on_primary_error feishuCfg chatId mediaUrl error) in
  run e n reg (sendMediaFeishuWithFallback cfg to mediaUrl)
  = {| trace := Ev (SendMediaFeishu to mediaUrl) :: trace o;
       final_registry := final_registry o;
       result := result o |}.
Proof.
  intros Hcfg Hn Hne He. unfold sendMediaFeishuWithFallback.
  rewrite Hcfg, Hn. simpl. apply String.eqb_neq in Hne. rewrite Hne. simpl.
  rewrite He. reflexivity.
Qed.

(** C1: after a quota-classified failure of the primary send, with a
    webhook URL resolved for the normalized target, every run of
    [sendMediaFeishuWithFallback], whether it returns or throws, has
    attempted a POST to that webhook. *)
Theorem fallback_always_posts (cfg : ClawdbotConfig) (to mediaUrl : string)
    (feishuCfg : FeishuConfig) (chatId webhookUrl : string)
    (e : env) (n : nat) (reg : registry) (error : value) :
  channels_feishu cfg = Some feishuCfg ->
  normalizeFeishuTarget to = Some chatId ->
  chatId <> EmptyString ->
  e n _ (SendMediaFeishu to mediaUrl) = inl error ->
  isQuotaError error = true ->
  resolveWebhookUrl feishuCfg chatId = Some webhookUrl ->
  webhookUrl <> EmptyString ->
  Exists (is_post_to webhookUrl)
    (trace (run e n reg (sendMediaFeishuWithFallback cfg to mediaUrl))).
Proof.
  intros Hcfg Hn Hne He Hq Hw Hwne.
  rewrite (run_primary_failure cfg to mediaUrl feishuCfg chatId e n reg error)
    by assumption.
  simpl. apply Exists_cons_tl, exits_after_sound.
  now apply fallback_exits.
Qed.

End MediaOrchestrator.

(** ** Node's [path.extname] *)

Section Extname.
Import Js Spec Path.

(** The embedding on the examples of the Node.js documentation. *)
Example extname_documented :
  map extname ["index.html"; "index.coffee.md"; "index."; "index";
               ".index"; ".index.md"]
  = [".html"; ".md"; "."; EmptyString; EmptyString; ".md"].
Proof. reflexivity. Qed.

Example extname_trailing_separator : extname "/srv/chart.png/" = ".png".
Proof. reflexivity. Qed.

Lemma list_of_app (a b : string) :
  String.list_ascii_of_string (a +:+ b)
  = String.list_ascii_of_string a ++ String.list_ascii_of_string b.
Proof.
  induction a as [|c a IH]; [reflexivity|].
  rewrite app_cons_s. simpl. now rewrite IH.
Qed.

Lemma length_list_of (s : string) :
  length (String.list_ascii_of_string s) = String.length s.
Proof. induction s as [|c s IH]; simpl; [reflexivity | now rewrite IH]. Qed.

Lemma length_app_s (a b : string) :
  String.length (a +:+ b) = (String.length a + String.length b)%nat.
Proof.
  induction a as [|c a IH]; [reflexivity|].
  rewrite app_cons_s. simpl. now rewrite IH.
Qed.

Lemma substring_all (b : string) : String.substring 0 (String.length b) b = b.
Proof. induction b as [|c b IH]; simpl; [reflexivity | now rewrite IH]. Qed.

Lemma substring_app (a b : string) :
  String.substring (String.length a) (String.length b) (a +:+ b) = b.
Proof.
  induction a as [|c a IH]; [apply substring_all|].
  rewrite app_cons_s. simpl. exact IH.
Qed.

Ltac scan_simpl :=
  cbn [startDot startPart end_ matchedSlash preDotState set_startDot
       set_startPart set_end set_preDotState ended scan_init].

Lemma eqb_slash (ch : ascii) : ch <> "/"%char -> Ascii.eqb ch "/" = false.
Proof. apply Ascii.eqb_neq. Qed.

Lemma eqb_dot (ch : ascii) : ch <> "."%char -> Ascii.eqb ch "." = false.
Proof. apply Ascii.eqb_neq. Qed.

Lemma loop_plain (l rest : list ascii) (i E : Z) :
  Forall plain_char l -> E <> (-1)%Z ->
  extname_loop (l ++ rest) i (ended E)
  = extname_loop rest (i - Z.of_nat (length l)) (ended E).
Proof.
  intros Hl HE. revert i. induction Hl as [|ch l [Hs Hd] Hl IH]; intros i.
  - simpl. f_equal. lia.
  - cbn [app extname_loop length]. rewrite (eqb_slash _ Hs).
    unfold see_char. rewrite (eqb_dot _ Hd).
    apply Z.eqb_neq in HE. cbn [end_ ended startDot]. rewrite HE.
    cbn [negb Z.eqb]. rewrite IH. f_equal. lia.
Qed.

Lemma loop_first_plain (ch : ascii) (rest : list ascii) (i : Z) :
  plain_char ch -> (0 <= i)%Z ->
  extname_loop (ch :: rest) i scan_init
  = extname_loop rest (i - 1) (ended (i + 1)).
Proof.
  intros [Hs Hd] Hi. cbn [extname_loop]. rewrite (eqb_slash _ Hs).
  unfold see_char. rewrite (eqb_dot _ Hd). reflexivity.
Qed.

(** Once the dot and the end are found, the scan keeps them. *)
Lemma loop_keeps (l : list ascii) (i : Z) (st : scan) :
  startDot st <> (-1)%Z -> end_ st <> (-1)%Z ->
  startDot (extname_loop l i st) = startDot st
  /\ end_ (extname_loop l i st) = end_ st.
Proof.
  revert i st. induction l as [|ch l IH]; intros i st Hd He; [now split|].
  cbn [extname_loop]. destruct (Ascii.eqb ch "/").
  - destruct (negb (matchedSlash st)); [now split | now apply IH].
  - assert (Hsee : startDot (see_char ch i st) = startDot st
                   /\ end_ (see_char ch i st) = end_ st).
    { unfold see_char. apply Z.eqb_neq in Hd, He. rewrite He, Hd.
      destruct (Ascii.eqb ch "."); cbn [negb];
        [destruct (negb (preDotState st =? 1)%Z)|]; now split. }
    destruct Hsee as [H1 H2].
    destruct (IH (i - 1)%Z (see_char ch i st)) as [H3 H4]; [congruence..|].
    split; congruence.
Qed.

(** ... and a character seen before the dot stays recorded. *)
Lemma loop_keeps_preDot (l : list ascii) (i : Z) (st : scan) :
  startDot st <> (-1)%Z -> end_ st <> (-1)%Z -> preDotState st <> 0%Z ->
  preDotState (extname_loop l i st) <> 0%Z.
Proof.
  revert i st. induction l as [|ch l IH]; intros i st Hd He Hp; [exact Hp|].
  cbn [extname_loop]. destruct (Ascii.eqb ch "/").
  - destruct (negb (matchedSlash st)); [exact Hp | now apply IH].
  - apply IH; unfold see_char; apply Z.eqb_neq in Hd, He;
      rewrite He, Hd; cbn [negb];
      destruct (Ascii.eqb ch "."); try destruct (negb (preDotState st =? 1)%Z);
      cbn; try (apply Z.eqb_neq; assumption); try assumption; discriminate.
Qed.

(** The scan of [pre ++ "." ++ e], for a plain non-empty [e], up to the
    dot. *)
Lemma loop_to_dot (pre e : string) :
  plain e -> e <> EmptyString ->
  let path := pre +:+ String "." e in
  extname_loop (rev (String.list_ascii_of_string path))
               (Z.of_nat (String.length path) - 1) scan_init
  = extname_loop (rev (String.list_ascii_of_string pre))
                 (Z.of_nat (String.length pre) - 1)
                 (set_startDot (ended (Z.of_nat (String.length path)))
                               (Z.of_nat (String.length pre))).
Proof.
  intros He Hne path. unfold path.
  rewrite list_of_app, rev_app_distr. cbn [String.list_ascii_of_string rev].
  rewrite length_app_s. cbn [String.length].
  assert (Hrev : Forall plain_char (rev (String.list_ascii_of_string e)))
    by now apply Forall_rev.
  rewrite <- (length_list_of e), <- (length_rev (String.list_ascii_of_string e)).
  destruct (rev (String.list_ascii_of_string e)) as [|ch l] eqn:Hl.
  - destruct e; [congruence|]. apply (f_equal (@length ascii)) in Hl.
    rewrite length_rev in Hl. discriminate.
  - inversion Hrev as [|? ? Hch Hrest]; subst.
    rewrite <- !app_assoc. cbn [app].
    rewrite loop_first_plain by (assumption || lia).
    rewrite loop_plain by (assumption || lia).
    cbn [app extname_loop Ascii.eqb Bool.eqb]. unfold see_char.
    cbn [Ascii.eqb Bool.eqb ended end_ startDot].
    replace (Z.of_nat (String.length pre + S (length (ch :: l))) - 1 + 1 =? -1)%Z
      with false by (symmetry; apply Z.eqb_neq; lia).
    cbn [Z.eqb]. unfold set_startDot. cbn. f_equal; [lia|].
    f_equal; lia.
Qed.

(** A reference that ends in [.ext] has the extension [.ext] or none. *)
Lemma extname_suffix (pre e : string) :
  plain e -> e <> EmptyString ->
  let path := pre +:+ String "." e in
  extname path = EmptyString \/ extname path = String "." e.
Proof.
  intros He Hne path. unfold extname. cbv zeta.
  pose proof (loop_to_dot pre e He Hne) as Hloop. cbv zeta in Hloop.
  fold path in Hloop. rewrite Hloop. clear Hloop.
  set (st0 := set_startDot _ _).
  assert (Hlen : String.length path = (String.length pre + S (String.length e))%nat).
  { unfold path. now rewrite length_app_s. }
  destruct (loop_keeps (rev (String.list_ascii_of_string pre))
              (Z.of_nat (String.length pre) - 1) st0) as [Hd Hend].
  { cbn. lia. } { cbn. lia. }
  set (st := extname_loop _ _ st0) in *. cbn in Hd, Hend.
  destruct (_ || _ || _ || _)%bool; [now left | right].
  rewrite Hd, Hend, Hlen.
  replace (Z.to_nat (Z.of_nat (String.length pre))) with (String.length pre) by lia.
  replace (Z.to_nat _) with (String.length (String "." e)) by (cbn; lia).
  apply substring_app.
Qed.

(** When something other than a separator precedes the dot, the extension
    is [.ext]. *)
Lemma extname_named (pre : string) (c : ascii) (e : string) :
  plain e -> e <> EmptyString -> c <> "/"%char ->
  extname (pre +:+ String c (String "." e)) = String "." e.
Proof.
  intros He Hne Hc.
  replace (pre +:+ String c (String "." e))
    with ((pre +:+ String c EmptyString) +:+ String "." e)
    by now rewrite app_assoc_s.
  set (pre' := pre +:+ String c EmptyString).
  unfold extname. cbv zeta.
  pose proof (loop_to_dot pre' e He Hne) as Hloop. cbv zeta in Hloop.
  rewrite Hloop. clear Hloop.
  set (path := pre' +:+ String "." e).
  set (st0 := set_startDot _ _).
  assert (Hlen' : String.length pre' = S (String.length pre)).
  { unfold pre'. rewrite length_app_s. cbn. lia. }
  assert (Hlen : String.length path = (String.length pre' + S (String.length e))%nat).
  { unfold path. now rewrite length_app_s. }
  assert (Hrev : rev (String.list_ascii_of_string pre')
                 = c :: rev (String.list_ascii_of_string pre)).
  { unfold pre'. now rewrite list_of_app, rev_app_distr. }
  rewrite Hrev. cbn [extname_loop]. rewrite (eqb_slash _ Hc).
  set (st1 := see_char c _ st0).
  assert (H1 : startDot st1 = Z.of_nat (String.length pre')
               /\ end_ st1 = Z.of_nat (String.length path)
               /\ preDotState st1 <> 0%Z).
  { assert (Hq1 : (Z.of_nat (String.length path) =? -1)%Z = false)
      by (apply Z.eqb_neq; lia).
    assert (Hq2 : (Z.of_nat (String.length pre') =? -1)%Z = false)
      by (apply Z.eqb_neq; lia).
    unfold st1, see_char, st0. scan_simpl.
    rewrite Hq1. scan_simpl. rewrite Hq2.
    destruct (Ascii.eqb c "."); cbn; repeat split; lia. }
  destruct H1 as (Hd1 & He1 & Hp1).
  destruct (loop_keeps (rev (String.list_ascii_of_string pre))
              (Z.of_nat (String.length pre') - 1 - 1) st1) as [Hd Hend];
    [lia | lia |].
  pose proof (loop_keeps_preDot (rev (String.list_ascii_of_string pre))
                (Z.of_nat (String.length pre') - 1 - 1) st1) as Hp.
  set (st := extname_loop _ _ st1) in *.
  rewrite Hd1 in Hd. rewrite He1 in Hend.
  assert (Hp' : preDotState st <> 0%Z) by (apply Hp; lia || assumption).
  assert (Hle : (1 <= String.length e)%nat)
    by (destruct e; [congruence | cbn; lia]).
  rewrite Hd, Hend.
  replace (Z.of_nat (String.length pre') =? -1)%Z with false
    by (symmetry; apply Z.eqb_neq; lia).
  replace (Z.of_nat (String.length path) =? -1)%Z with false
    by (symmetry; apply Z.eqb_neq; lia).
  replace (preDotState st =? 0)%Z with false
    by (symmetry; now apply Z.eqb_neq).
  replace (Z.of_nat (String.length pre') =? Z.of_nat (String.length path) - 1)%Z
    with false by (symmetry; apply Z.eqb_neq; lia).
  rewrite andb_false_r. cbn [orb andb].
  replace (Z.to_nat (Z.of_nat (String.length pre'))) with (String.length pre') by lia.
  replace (Z.to_nat _) with (String.length (String "." e)) by (cbn; lia).
  apply substring_app.
Qed.

End Extname.

(** ** Runs of sequenced programs *)

Section RunLemmas.
Import Js Eff Spec.

Lemma run_bind {A B : Type} (e : env) (n : nat) (reg : registry)
    (p : prog A) (f : A -> prog B) :
  run e n reg (bind p f)
  = let o := run e n reg p in
    match result o with
    | inl v =>
        {| trace := trace o; final_registry := final_registry o;
           result := inl v |}
    | inr a =>
        let o' := run e (n + length (trace o)) (final_registry o) (f a) in
        {| trace := trace o ++ trace o';
           final_registry := final_registry o';
           result := result o' |}
    end.
Proof.
  revert n reg. induction p as [r|v|X c k IH]; intros n reg.
  - simpl. rewrite Nat.add_0_r. now destruct (run e n reg (f r)).
  - reflexivity.
  - simpl. destruct (is_registry_call c).
    + apply IH.
    + rewrite IH. simpl.
      destruct (result (run e (S n) _ (k _))); [reflexivity|].
      simpl. now rewrite Nat.add_succ_r.
Qed.

Lemma run_try_catch {A : Type} (e : env) (n : nat) (reg : registry)
    (p : prog A) (h : value -> prog A) :
  run e n reg (try_catch p h)
  = let o := run e n reg p in
    match result o with
    | inr a =>
        {| trace := trace o; final_registry := final_registry o;
           result := inr a |}
    | inl v =>
        let o' := run e (n + length (trace o)) (final_registry o) (h v) in
        {| trace := trace o ++ trace o';
           final_registry := final_registry o';
           result := result o' |}
    end.
Proof.
  revert n reg. induction p as [r|v|X c k IH]; intros n reg.
  - reflexivity.
  - simpl. rewrite Nat.add_0_r. now destruct (run e n reg (h v)).
  - simpl. destruct (is_registry_call c).
    + apply IH.
    + rewrite IH. simpl.
      destruct (result (run e (S n) _ (k _))); [|reflexivity].
      simpl. now rewrite Nat.add_succ_r.
Qed.

End RunLemmas.

(** ** The orchestrator: configuration error, media classification,
       acquisition *)

Section MediaClaims.
Import Js Eff Policy Spec Webhook ImageHost MediaFallback.
Context `{Platform}.

Ltac str_norm :=
  repeat rewrite app_assoc_s;
  repeat (rewrite app_cons_s || change (EmptyString +:+ ?x) with x).

Lemma no_webhook_message_names (error : value) (chatId : string) :
  Contains chatId (no_webhook_message error chatId)
  /\ Contains ("channels.feishu.groups[" +:+ String "034" chatId
               +:+ String "034" "].webhookUrl")
              (no_webhook_message error chatId).
Proof.
  unfold no_webhook_message. split.
  - exists ("Feishu API quota exceeded (" +:+ to_string error
            +:+ "). No webhook configured for fallback. "
            +:+ "Add webhookUrl to channels.feishu.groups["
            +:+ String "034" EmptyString),
           (String "034" "].webhookUrl in config.").
    now str_norm.
  - exists ("Feishu API quota exceeded (" +:+ to_string error
            +:+ "). No webhook configured for fallback. "
            +:+ "Add webhookUrl to "),
           " in config.".
    now str_norm.
Qed.

(** C4: when the primary send fails with a quota-classified error and no
    webhook URL is resolved for the normalized target, the only call of the
    run is the primary send, and the run throws an [Error] whose message
    contains the normalized target and the configuration key
    [channels.feishu.groups["<chatId>"].webhookUrl]. *)
Theorem no_webhook_is_configuration_error (cfg : ClawdbotConfig)
    (to mediaUrl : string) (feishuCfg : FeishuConfig) (chatId : string)
    (e : env) (n : nat) (reg : registry) (error : value) :
  channels_feishu cfg = Some feishuCfg ->
  normalizeFeishuTarget to = Some chatId ->
  chatId <> EmptyString ->
  e n _ (SendMediaFeishu to mediaUrl) = inl error ->
  isQuotaError error = true ->
  truthy_str (resolveWebhookUrl feishuCfg chatId) = false ->
  let o := run e n reg (sendMediaFeishuWithFallback cfg to mediaUrl) in
  trace o = [Ev (SendMediaFeishu to mediaUrl)]
  /\ exists message,
       result o = inl (mkError message)
       /\ Contains chatId message
       /\ Contains ("channels.feishu.groups[" +:+ String "034" chatId
                    +:+ String "034" "].webhookUrl") message.
Proof.
  intros Hcfg Hn Hne He Hq Hw o. unfold o.
  rewrite (run_primary_failure cfg to mediaUrl feishuCfg chatId e n reg error)
    by assumption.
  unfold on_primary_error. rewrite Hq, Hw. simpl. split; [reflexivity|].
  exists (no_webhook_message error chatId). split; [reflexivity|].
  apply no_webhook_message_names.
Qed.

Lemma on_primary_error_resolved (feishuCfg : FeishuConfig)
    (chatId mediaUrl webhookUrl : string) (error : value) :
  isQuotaError error = true ->
  resolveWebhookUrl feishuCfg chatId = Some webhookUrl ->
  webhookUrl <> EmptyString ->
  on_primary_error feishuCfg chatId mediaUrl error
  = if isImage mediaUrl then image_fallback webhookUrl chatId mediaUrl
    else bind (sendViaWebhook
                 (text_params webhookUrl (link_prefix +:+ mediaUrl)))
              (fun _ => Ret (webhook_sent chatId)).
Proof.
  intros Hq Hw Hne. unfold on_primary_error. rewrite Hq, Hw. simpl.
  apply String.eqb_neq in Hne. rewrite Hne. simpl.
  now destruct (isImage mediaUrl).
Qed.

(** The non-image branch: one POST of the link, then the sentinel result
    or the error of the webhook sender. *)
Lemma run_link_only (webhookUrl chatId mediaUrl : string)
    (e : env) (n : nat) (reg : registry) :
  let o := run e n reg
             (bind (sendViaWebhook (text_params webhookUrl (link_prefix +:+ mediaUrl)))
                   (fun _ => Ret (webhook_sent chatId))) in
  trace o = [Ev (Fetch webhookUrl
                   (POST_JSON (card_payload (link_prefix +:+ mediaUrl))))]
  /\ (result o = inr (webhook_sent chatId) \/ exists err, result o = inl err).
Proof.
  unfold sendViaWebhook, perform. simpl.
  destruct (e n _ _) as [err|resp]; simpl; [eauto|].
  destruct (ok resp); simpl; [|eauto].
  destruct (json_body resp) as [err|w]; simpl; [eauto|].
  destruct (code w =? 0)%Z; simpl; eauto.
Qed.

Lemma isImage_suffix_pdf (pre : string) : isImage (pre +:+ ".pdf") = false.
Proof.
  unfold isImage.
  destruct (extname_suffix pre "pdf") as [-> | ->]; try reflexivity.
  - repeat constructor; discriminate.
  - discriminate.
Qed.

Lemma isImage_named (pre : string) (c : ascii) (ext : string) :
  c <> "/"%char -> In ext [".png"; ".jpg"; ".webp"] ->
  isImage (pre +:+ String c ext) = true.
Proof.
  intros Hc Hin. unfold isImage.
  destruct Hin as [<-|[<-|[<-|[]]]];
    rewrite extname_named; try reflexivity; try assumption;
    try discriminate; repeat constructor; discriminate.
Qed.

Lemma run_acquire_first (mediaUrl : string) (e : env) (n : nat)
    (reg : registry) :
  exists rest,
    trace (run e n reg (acquire mediaUrl)) = first_acquisition mediaUrl :: rest.
Proof.
  unfold acquire, first_acquisition.
  destruct (isLocalPath mediaUrl); simpl; eauto.
Qed.

(** The image branch starts with the acquisition and, when that gives a
    buffer, goes on with the platform upload of this buffer. *)
Lemma run_image_fallback (webhookUrl chatId mediaUrl : string)
    (e : env) (n : nat) (reg : registry) :
  let a := run e n reg (acquire mediaUrl) in
  let o := run e n reg (image_fallback webhookUrl chatId mediaUrl) in
  (exists rest, trace o = first_acquisition mediaUrl :: rest)
  /\ (forall buffer, result a = inr buffer ->
        exists rest,
          trace o = trace a ++ Ev (UploadImageFeishu buffer) :: rest).
Proof.
  intros a o.
  assert (Ho : exists tl, trace o = trace a ++ tl
               /\ forall buffer, result a = inr buffer ->
                    exists rest, tl = Ev (UploadImageFeishu buffer) :: rest).
  { unfold o, image_fallback. rewrite run_try_catch, run_bind. fold a.
    cbv zeta. destruct (result a) as [err|buffer] eqn:Ha; simpl.
    - eexists. split; [reflexivity|]. intros; discriminate.
    - rewrite run_try_catch. cbv zeta. simpl.
      match goal with
      | |- context [result ?x] => destruct (result x) eqn:Hr
      end; simpl.
      + match goal with
        | |- context [result ?x] => destruct (result x)
        end; simpl; rewrite <- ?app_assoc; simpl;
          (eexists; split; [reflexivity|]);
          intros b [= <-]; eauto.
      + eexists. split; [reflexivity|]. intros b [= <-]. eauto. }
  destruct Ho as (tl & Htl & Hup). split.
  - destruct (run_acquire_first mediaUrl e n reg) as [rest Hrest].
    fold a in Hrest. rewrite Htl, Hrest. simpl. eauto.
  - intros buffer Hb. destruct (Hup buffer Hb) as [rest ->]. eauto.
Qed.

(** C8 (as the code has it): after a quota-classified primary failure with
    a webhook URL resolved, a reference that ends in [.png], [.jpg] or
    [.webp] after a character other than the path separator is handled as
    an image: the next call is the acquisition (the existence check of the
    local file, or the GET of the URL) and, when the acquisition gives a
    buffer, the platform upload of that buffer follows.  For a reference
    that ends in [.pdf] the run consists of the primary send and one POST
    of the link message to the webhook, and gives the sentinel result
    unless that POST fails. *)
Theorem media_classification (cfg : ClawdbotConfig) (to mediaUrl : string)
    (feishuCfg : FeishuConfig) (chatId webhookUrl : string)
    (e : env) (n : nat) (reg : registry) (error : value) :
  channels_feishu cfg = Some feishuCfg ->
  normalizeFeishuTarget to = Some chatId ->
  chatId <> EmptyString ->
  e n _ (SendMediaFeishu to mediaUrl) = inl error ->
  isQuotaError error = true ->
  resolveWebhookUrl feishuCfg chatId = Some webhookUrl ->
  webhookUrl <> EmptyString ->
  let o := run e n reg (sendMediaFeishuWithFallback cfg to mediaUrl) in
  let a := run e (S n) reg (acquire mediaUrl) in
  ((exists pre c ext,
      mediaUrl = pre +:+ String c ext /\ c <> "/"%char
      /\ In ext [".png"; ".jpg"; ".webp"]) ->
   (exists rest,
      trace o = Ev (SendMediaFeishu to mediaUrl)
                :: first_acquisition mediaUrl :: rest)
   /\ (forall buffer, result a = inr buffer ->
         exists rest,
           trace o = Ev (SendMediaFeishu to mediaUrl)
                     :: trace a ++ Ev (UploadImageFeishu buffer) :: rest))
  /\ (EndsWith ".pdf" mediaUrl ->
      trace o = [Ev (SendMediaFeishu to mediaUrl);
                 Ev (Fetch webhookUrl
                       (POST_JSON (card_payload (link_prefix +:+ mediaUrl))))]
      /\ (result o = inr (webhook_sent chatId)
          \/ exists err, result o = inl err)).
Proof.
  intros Hcfg Hn Hne He Hq Hw Hwne o a. unfold o.
  rewrite (run_primary_failure cfg to mediaUrl feishuCfg chatId e n reg error)
    by assumption.
  rewrite (on_primary_error_resolved feishuCfg chatId mediaUrl webhookUrl)
    by assumption.
  cbn [trace result]. split.
  - intros (pre & c & ext & -> & Hc & Hin).
    rewrite (isImage_named pre c ext Hc Hin).
    destruct (run_image_fallback webhookUrl chatId (pre +:+ String c ext)
                e (S n) reg) as [[rest Hrest] Hup].
    split.
    + rewrite Hrest. eauto.
    + intros buffer Hb. destruct (Hup buffer Hb) as [rest' ->]. eauto.
  - intros [pre ->]. rewrite isImage_suffix_pdf.
    destruct (run_link_only webhookUrl chatId (pre +:+ ".pdf") e (S n) reg)
      as [Htr Hres].
    rewrite Htr. split; [reflexivity | exact Hres].
Qed.

(** C9: a reference with the [file://] prefix does not begin with a
    path-root marker, a home-directory marker or a drive letter, so the
    acquisition does not read the named local file: its only call is the
    GET of the whole reference. *)
Theorem file_url_is_fetched (rest : string) (e : env) (n : nat)
    (reg : registry) :
  isLocalPath ("file://" +:+ rest) = false
  /\ trace (run e n reg (acquire ("file://" +:+ rest)))
     = [Ev (Fetch ("file://" +:+ rest) GET)].
Proof.
  assert (Hl : isLocalPath ("file://" +:+ rest) = false) by reflexivity.
  split; [exact Hl|]. unfold acquire. rewrite Hl. unfold perform. simpl.
  destruct (e n _ _) as [err|resp]; simpl; [reflexivity|].
  now destruct (ok resp).
Qed.

End MediaClaims.

(** ** The image host multiplexer *)

Section ImageHostClaims.
Import Js Eff Spec ImageHost.

Lemma run_bind_ret {A : Type} (p : prog A) (e : env) (n : nat)
    (reg : registry) :
  run e n reg (bind p Ret) = run e n reg p.
Proof.
  revert n reg. induction p as [r|v|X c k IH]; intros n reg;
    simpl; try reflexivity.
  destruct (is_registry_call c); now rewrite IH.
Qed.

Lemma run_uploadToCatbox (buffer : Buffer) (e : env) (n : nat)
    (reg : registry) :
  let c := run e n reg (uploadToCatbox buffer) in
  trace c = [Ev (Fetch catbox_endpoint (POST_FORM (catbox_form buffer)))]
  /\ final_registry c = reg
  /\ forall r,
       result c = inr r <->
       exists resp,
         e n _ (Fetch catbox_endpoint (POST_FORM (catbox_form buffer))) = inr resp
         /\ ok resp = true
         /\ startsWith "https://" (body resp) = true
         /\ r = {| url := body resp; deleteUrl := None |}.
Proof.
  unfold uploadToCatbox, perform. simpl.
  destruct (e n _ _) as [err|resp]; simpl.
  { repeat split; try discriminate. intros (resp & Hr & _). discriminate. }
  destruct (ok resp) eqn:Hok; simpl.
  2:{ repeat split; try discriminate.
      intros (resp' & [= <-] & Hok' & _). congruence. }
  destruct (body resp) as [|ch b] eqn:Hb.
  { simpl. repeat split; try discriminate.
    intros (resp' & [= <-] & _ & Hs & _). rewrite Hb in Hs. discriminate. }
  change (negb (String.eqb (String ch b) EmptyString)) with true.
  cbn [andb].
  destruct (startsWith "https://" (String ch b)) eqn:Hs; simpl.
  - repeat split.
    + intros [= <-]. exists resp. now rewrite Hb.
    + intros (resp' & [= <-] & _ & _ & ->). now rewrite Hb.
  - repeat split; try discriminate.
    intros (resp' & [= <-] & _ & Hs' & _). rewrite Hb in Hs'. congruence.
Qed.

Lemma run_uploadTo0x0 (buffer : Buffer) (e : env) (n : nat)
    (reg : registry) :
  let z := run e n reg (uploadTo0x0 buffer) in
  trace z = [Ev (Fetch zerox0_endpoint (POST_FORM (zerox0_form buffer)))]
  /\ final_registry z = reg
  /\ forall r,
       result z = inr r <->
       exists resp,
         e n _ (Fetch zerox0_endpoint (POST_FORM (zerox0_form buffer))) = inr resp
         /\ ok resp = true
         /\ startsWith "https://" (trim (body resp)) = true
         /\ r = {| url := trim (body resp); deleteUrl := None |}.
Proof.
  unfold uploadTo0x0, perform. simpl.
  destruct (e n _ _) as [err|resp]; simpl.
  { repeat split; try discriminate. intros (resp & Hr & _). discriminate. }
  destruct (ok resp) eqn:Hok; simpl.
  2:{ repeat split; try discriminate.
      intros (resp' & [= <-] & Hok' & _). congruence. }
  destruct (body resp) as [|ch b] eqn:Hb.
  { simpl. repeat split; try discriminate.
    intros (resp' & [= <-] & _ & Hs & _). rewrite Hb in Hs. discriminate. }
  change (negb (String.eqb (String ch b) EmptyString)) with true.
  cbn [andb].
  destruct (startsWith "https://" (trim (String ch b))) eqn:Hs; simpl.
  - repeat split.
    + intros [= <-]. exists resp. now rewrite Hb.
    + intros (resp' & [= <-] & _ & _ & ->). now rewrite Hb.
  - repeat split; try discriminate.
    intros (resp' & [= <-] & _ & Hs' & _). rewrite Hb in Hs'. congruence.
Qed.

(** C6 (as the code has it): [uploadImageToHost] calls catbox.moe first
    and returns its result when it succeeds, without calling 0x0.st;
    otherwise it calls 0x0.st and returns its result when that succeeds;
    when both fail it throws one error whose message ends with the message
    of the 0x0.st failure.  catbox succeeds exactly on an HTTP success
    whose body begins with ["https://"]; 0x0.st succeeds exactly on an HTTP
    success whose body, trimmed of surrounding white space, begins with
    ["https://"], and gives the trimmed body. *)
Theorem uploadImageToHost_first_success (buffer : Buffer) (e : env) (n : nat)
    (reg : registry) :
  let c := run e n reg (uploadToCatbox buffer) in
  let z := run e (S n) reg (uploadTo0x0 buffer) in
  let o := run e n reg (uploadImageToHost buffer) in
  trace c = [Ev (Fetch catbox_endpoint (POST_FORM (catbox_form buffer)))]
  /\ trace z = [Ev (Fetch zerox0_endpoint (POST_FORM (zerox0_form buffer)))]
  /\ match result c with
     | inr r => trace o = trace c /\ result o = inr r
     | inl _ =>
         trace o = trace c ++ trace z
         /\ match result z with
            | inr r => result o = inr r
            | inl err =>
                result o
                = inl (mkError ("All image hosting services failed. Last error: "
                                +:+ message_of err))
            end
     end
  /\ (forall r,
        result c = inr r <->
        exists resp,
          e n _ (Fetch catbox_endpoint (POST_FORM (catbox_form buffer))) = inr resp
          /\ ok resp = true
          /\ startsWith "https://" (body resp) = true
          /\ r = {| url := body resp; deleteUrl := None |})
  /\ (forall r,
        result z = inr r <->
        exists resp,
          e (S n) _ (Fetch zerox0_endpoint (POST_FORM (zerox0_form buffer))) = inr resp
          /\ ok resp = true
          /\ startsWith "https://" (trim (body resp)) = true
          /\ r = {| url := trim (body resp); deleteUrl := None |}).
Proof.
  intros c z o.
  destruct (run_uploadToCatbox buffer e n reg) as (Hc & Hcr & Hci).
  destruct (run_uploadTo0x0 buffer e (S n) reg) as (Hz & Hzr & Hzi).
  fold c in Hc, Hcr, Hci. fold z in Hz, Hzr, Hzi.
  repeat split; try assumption; try apply Hci; try apply Hzi.
  unfold o, uploadImageToHost, services. cbn [try_services upload].
  rewrite run_try_catch, run_bind_ret. fold c. cbv zeta.
  rewrite Hc, Hcr. cbn [length]. replace (n + 1)%nat with (S n) by lia.
  rewrite run_try_catch, run_bind_ret. fold z. cbv zeta. rewrite Hz, Hzr.
  destruct (result c) as [err1|r1]; cbn [result trace];
    [|split; reflexivity].
  destruct (result z) as [err2|r2]; cbn [result trace];
    split; reflexivity.
Qed.

End ImageHostClaims.

(** ** The outbound facade and the webhook payload *)

Section OutboundClaims.
Import Js Eff Policy Spec Webhook MediaFallback Outbound.
Context `{Platform}.

(** C2: on a request with a non-blank text and no media URL, [sendMedia]
    calls the text delivery path twice with the same text: once for
    "text first", once more for the result it returns. *)
Theorem text_only_request_sends_twice (cfg : ClawdbotConfig)
    (to text : string) (mediaUrl : option string)
    (e : env) (n : nat) (reg : registry) (r : FeishuSendResult) :
  has_text (Some text) = true ->
  truthy_str mediaUrl = false ->
  e n _ (SendMessageFeishuWithFallback to text) = inr r ->
  trace (run e n reg (sendMedia cfg to (Some text) mediaUrl))
  = [Ev (SendMessageFeishuWithFallback to text);
     Ev (SendMessageFeishuWithFallback to text)].
Proof.
  intros Ht Hm He. unfold sendMedia. rewrite Ht, Hm.
  unfold perform. simpl. rewrite He. simpl.
  now destruct (e (S n) _ _).
Qed.

(** C3: the program [sendViaWebhook] runs, and so the payload it posts,
    is the same whatever image key it is given; after a successful
    re-upload the card posted has the empty content. *)
Theorem webhook_payload_ignores_imageKey (webhookUrl : string)
    (key1 key2 : string) (e : env) (n : nat) (reg : registry) :
  sendViaWebhook (image_params webhookUrl key1)
  = sendViaWebhook (image_params webhookUrl key2)
  /\ trace (run e n reg (sendViaWebhook (image_params webhookUrl key1)))
     = [Ev (Fetch webhookUrl (POST_JSON (card_payload EmptyString)))].
Proof.
  split; [reflexivity|].
  unfold sendViaWebhook, perform. simpl.
  destruct (e n _ _) as [err|resp]; simpl; [reflexivity|].
  destruct (ok resp); simpl; [|reflexivity].
  destruct (json_body resp) as [err|w]; simpl; [reflexivity|].
  now destruct (code w =? 0)%Z.
Qed.

End OutboundClaims.

(** ** The typing indicator tracker *)

Section TypingClaims.
Import Js Eff Policy Spec Webhook Typing.
Context `{Platform}.




(** A registered message: the call returns at once. *)
Lemma add_suppressed (cfg : ClawdbotConfig) (m : string)
    (chatId : option string) (e : env) (n : nat) (reg : registry) :
  m ∈ reg ->
  run e n reg (addTypingIndicator cfg m chatId)
  = {| trace := []; final_registry := reg; result := inr (no_reaction m) |}.
Proof.
  intros Hm. unfold addTypingIndicator, ask. simpl.
  now rewrite bool_decide_eq_true_2.
Qed.

(** The webhook branch, run on its own: it registers the message exactly
    when its POST, the last call of the run, is taken by the webhook. *)
Lemma run_webhook_ack (feishuCfg : FeishuConfig) (m : string)
    (chatId : option string) (err : value) (e : env) (n : nat)
    (reg : registry) :
  let w := run e n reg (webhook_ack feishuCfg m chatId err) in
  (result w = inr None /\ final_registry w = reg)
  \/ (result w = inr (Some {| messageId := m; reactionId := None;
                              usedWebhook := Some true |})
      /\ final_registry w = {[m]} ∪ reg
      /\ exists ev, trace w = [ev] /\ answered_ok e n ev = true).
Proof.
  unfold webhook_ack.
  destruct (isQuotaError err && truthy_str chatId); [|now left].
  destruct (truthy_str (normalizeFeishuTarget _)); [|now left].
  destruct (truthy_str (resolveWebhookUrl _ _)); [|now left].
  unfold sendViaWebhook, perform, ask. simpl.
  destruct (e n _ _) as [v|resp] eqn:He; simpl; [now left|].
  destruct (ok resp) eqn:Hok; simpl; [|now left].
  destruct (json_body resp) as [v|wr] eqn:Hj; simpl; [now left|].
  destruct (code wr =? 0)%Z eqn:Hc; simpl; [|now left].
  right. repeat split. eexists. split; [reflexivity|].
  simpl. rewrite He. simpl. now rewrite Hok, Hj.
Qed.

(** The run of a call for a message that is not registered yet. *)
Lemma run_add_fresh (cfg : ClawdbotConfig) (feishuCfg : FeishuConfig)
    (m : string) (chatId : option string) (e : env) (n : nat)
    (reg : registry) :
  m ∉ reg -> channels_feishu cfg = Some feishuCfg ->
  let create := ReactionCreate m TYPING_EMOJI in
  run e n reg (addTypingIndicator cfg m chatId)
  = match e n _ create with
    | inr rid =>
        {| trace := [Ev create]; final_registry := {[m]} ∪ reg;
           result := inr {| messageId := m; reactionId := rid;
                            usedWebhook := None |} |}
    | inl err =>
        let w := run e (S n) reg (webhook_ack feishuCfg m chatId err) in
        {| trace := Ev create :: trace w;
           final_registry := final_registry w;
           result := match result w with
                     | inr (Some state) => inr state
                     | inr None => inr (no_reaction m)
                     | inl v => inl v
                     end |}
    end.
Proof.
  intros Hm Hcfg create. unfold addTypingIndicator, ask. simpl.
  rewrite bool_decide_eq_false_2 by assumption. rewrite Hcfg.
  unfold perform. simpl. fold create.
  destruct (e n _ create) as [err|rid]; simpl; [|reflexivity].
  rewrite run_bind. cbv zeta.
  destruct (result (run e (S n) reg _)) as [v|[state|]];
    simpl; rewrite ?app_nil_r; reflexivity.
Qed.


(** C10: [removeTypingIndicator] returns normally in every run and leaves
    the registry alone; without a reaction id it performs no call; with
    one, its only call is the deletion of that reaction, whose failure is
    swallowed; calling it again with the same state, at once or later,
    returns normally too. *)
Theorem removeTypingIndicator_never_raises (cfg : ClawdbotConfig)
    (state : TypingIndicatorState) (e : env) (n : nat) (reg : registry) :
  let o := run e n reg (removeTypingIndicator cfg state) in
  result o = inr tt
  /\ final_registry o = reg
  /\ (truthy_str (reactionId state) = false -> trace o = [])
  /\ (forall feishuCfg rid,
        reactionId state = Some rid -> rid <> EmptyString ->
        channels_feishu cfg = Some feishuCfg ->
        trace o = [Ev (ReactionDelete (messageId state) rid)])
  /\ (forall e' n' reg',
        result (run e' n' reg' (removeTypingIndicator cfg state)) = inr tt)
  /\ result (run e n reg (bind (removeTypingIndicator cfg state)
                               (fun _ => removeTypingIndicator cfg state)))
     = inr tt.
Proof.
  assert (Hres : forall e' n' reg',
             result (run e' n' reg' (removeTypingIndicator cfg state)) = inr tt).
  { intros e' n' reg'. unfold removeTypingIndicator.
    destruct (negb (truthy_str (reactionId state))); [reflexivity|].
    destruct (channels_feishu cfg); [|reflexivity].
    unfold perform. simpl. now destruct (e' n' _ _) as [v|[]]. }
  intros o. split; [apply Hres|]. split; [|split; [|split; [|split]]].
  - unfold o, removeTypingIndicator.
    destruct (negb (truthy_str (reactionId state))); [reflexivity|].
    destruct (channels_feishu cfg); [|reflexivity].
    unfold perform. simpl. now destruct (e n _ _) as [v|[]].
  - intros Hf. unfold o, removeTypingIndicator. now rewrite Hf.
  - intros feishuCfg rid Hr Hne Hcfg. unfold o, removeTypingIndicator.
    rewrite Hr, Hcfg. simpl. apply String.eqb_neq in Hne. rewrite Hne.
    unfold perform. simpl. now destruct (e n _ _) as [v|[]].
  - exact Hres.
  - rewrite run_bind. cbv zeta. rewrite (Hres e n reg). apply Hres.
Qed.

End TypingClaims.

(** ** The properties on concrete runs *)

Section Scenarios.
Import Js Eff Policy Spec Webhook ImageHost MediaFallback Scenario.

(** The quota scenario on an image: a POST reaches the webhook. *)
Lemma fallback_always_posts_on_chart :
  Exists (is_post_to hook)
    (trace (run (env_of quota_answers) 0 ∅
              (@sendMediaFeishuWithFallback demo_platform cfg_hook "oc_1" chart))).
Proof.
  apply (@fallback_always_posts demo_platform cfg_hook "oc_1" chart
           [("oc_1", hook)] "oc_1" hook (env_of quota_answers) 0 ∅ quota_error);
    first [reflexivity | discriminate].
Defined.

(** The quota scenario without a webhook for the group. *)
Lemma no_webhook_on_chart :
  let o := run (env_of quota_answers) 0 ∅
             (@sendMediaFeishuWithFallback demo_platform cfg_no_hook "oc_1" chart) in
  trace o = [Ev (SendMediaFeishu "oc_1" chart)]
  /\ exists message,
       result o = inl (mkError message)
       /\ Contains "oc_1" message
       /\ Contains ("channels.feishu.groups[" +:+ String "034" "oc_1"
                    +:+ String "034" "].webhookUrl") message.
Proof.
  apply (@no_webhook_is_configuration_error demo_platform cfg_no_hook "oc_1"
           chart [] "oc_1" (env_of quota_answers) 0 ∅ quota_error);
    first [reflexivity | discriminate].
Defined.

(** The quota scenario on an image and on a document. *)
Lemma media_classification_on_chart_and_report :
  (exists rest,
     trace (run (env_of quota_answers) 0 ∅
              (@sendMediaFeishuWithFallback demo_platform cfg_hook "oc_1" chart))
     = Ev (SendMediaFeishu "oc_1" chart)
       :: @first_acquisition demo_platform chart :: rest)
  /\ trace (run (env_of quota_answers) 0 ∅
              (@sendMediaFeishuWithFallback demo_platform cfg_hook "oc_1" report))
     = [Ev (SendMediaFeishu "oc_1" report);
        Ev (Fetch hook (POST_JSON (card_payload (link_prefix +:+ report))))].
Proof.
  split.
  - destruct (@media_classification demo_platform cfg_hook "oc_1" chart
                [("oc_1", hook)] "oc_1" hook (env_of quota_answers) 0 ∅
                quota_error eq_refl eq_refl ltac:(discriminate) eq_refl
                eq_refl eq_refl ltac:(discriminate)) as [Himage _].
    assert (Hname : exists pre c ext,
               chart = pre +:+ String c ext /\ c <> "/"%char
               /\ In ext [".png"; ".jpg"; ".webp"]).
    { exists "/tmp/char", "t"%char, ".png".
      split; [reflexivity | split; [discriminate | simpl; tauto]]. }
    destruct (Himage Hname) as [Hfirst _]. exact Hfirst.
  - destruct (@media_classification demo_platform cfg_hook "oc_1" report
                [("oc_1", hook)] "oc_1" hook (env_of quota_answers) 0 ∅
                quota_error eq_refl eq_refl ltac:(discriminate) eq_refl
                eq_refl eq_refl ltac:(discriminate)) as [_ Hpdf].
    assert (Hend : EndsWith ".pdf" report) by now exists "/tmp/report".
    destruct (Hpdf Hend) as [Htrace _]. exact Htrace.
Defined.

(** A file named [.png]: the reference ends in [.png], yet the run sends it
    as a link and acquires nothing. *)
Lemma hidden_png_sent_as_link :
  EndsWith ".png" hidden_png
  /\ trace (run (env_of quota_answers) 0 ∅
              (@sendMediaFeishuWithFallback demo_platform cfg_hook "oc_1"
                 hidden_png))
     = [Ev (SendMediaFeishu "oc_1" hidden_png);
        Ev (Fetch hook (POST_JSON (card_payload (link_prefix +:+ hidden_png))))].
Proof. split; [now exists "/tmp/" | reflexivity]. Qed.

(** 0x0.st answers with a line break before the URL: the body does not
    begin with ["https://"], and the adapter and the multiplexer succeed
    with the trimmed URL. *)
Lemma padded_url_is_accepted :
  startsWith "https://" padded_body = false
  /\ result (run (env_of padded_answers) 1 ∅ (uploadTo0x0 "image-bytes"))
     = inr {| url := "https://0x0.st/abc.png"; deleteUrl := None |}
  /\ result (run (env_of padded_answers) 0 ∅ (uploadImageToHost "image-bytes"))
     = inr {| url := "https://0x0.st/abc.png"; deleteUrl := None |}.
Proof. repeat split; reflexivity. Qed.

(** The platform upload is over quota, catbox is down and 0x0.st takes the
    image: the message posted to the webhook carries the URL of the host. *)
Example hosted_link_is_posted :
  let o := run (env_of padded_answers) 0 ∅
             (@sendMediaFeishuWithFallback demo_platform cfg_hook "oc_1" chart) in
  trace o
  = [Ev (SendMediaFeishu "oc_1" chart);
     Ev (ExistsSync chart);
     Ev (ReadFileSync chart);
     Ev (UploadImageFeishu "image-bytes");
     Ev (Fetch catbox_endpoint (POST_FORM (catbox_form "image-bytes")));
     Ev (Fetch zerox0_endpoint (POST_FORM (zerox0_form "image-bytes")));
     Ev (Fetch hook
           (POST_JSON (card_payload (hosted_prefix +:+ "https://0x0.st/abc.png"))))]
  /\ result o = inr (webhook_sent "oc_1").
Proof. split; reflexivity. Qed.

(** The platform API over quota, the network and the webhook working: the
    run returns the sentinel result. *)
Example quota_run_returns_sentinel :
  result (run (env_of quota_answers) 0 ∅
            (@sendMediaFeishuWithFallback demo_platform cfg_hook "oc_1" chart))
  = inr (webhook_sent "oc_1").
Proof. reflexivity. Qed.

(** A text-only request, with every send succeeding. *)
Lemma hello_is_sent_twice :
  trace (run (env_of fine_answers) 0 ∅
           (@Outbound.sendMedia demo_platform cfg_hook "oc_1" (Some "hello") None))
  = [Ev (SendMessageFeishuWithFallback "oc_1" "hello");
     Ev (SendMessageFeishuWithFallback "oc_1" "hello")].
Proof.
  apply (@text_only_request_sends_twice demo_platform cfg_hook "oc_1" "hello"
           None (env_of fine_answers) 0 ∅ sent_by_api); reflexivity.
Defined.


(** Removing a reaction while the API is over quota: the deletion is
    attempted and its failure is swallowed. *)
Lemma remove_under_quota :
  let state := {| Typing.messageId := "om_7";
                  Typing.reactionId := Some "reaction_1";
                  Typing.usedWebhook := None |} in
  let o := run (env_of quota_answers) 0 ∅
             (@Typing.removeTypingIndicator demo_platform cfg_hook state) in
  result o = inr tt
  /\ trace o = [Ev (ReactionDelete "om_7" "reaction_1")].
Proof.
  intros state o.
  destruct (@removeTypingIndicator_never_raises demo_platform cfg_hook state
              (env_of quota_answers) 0 ∅) as (Hres & _ & _ & Hdel & _).
  split; [exact Hres|].
  apply (Hdel [("oc_1", hook)] "reaction_1"); first [reflexivity | discriminate].
Defined.

End Scenarios.

(** * Further properties of the sources *)

(** ** The webhook sender, call by call *)

Section WebhookSenderMore.
Import Js Eff Policy Spec Webhook.
Context `{Platform}.

(** The run of [sendViaWebhook]: its one call, and when it returns. *)
Lemma run_sendViaWebhook (params : SendWebhookParams) (e : env) (n : nat)
    (reg : registry) :
  let post := Fetch (webhookUrl params)
                (POST_JSON (card_payload (render_content params))) in
  let o := run e n reg (sendViaWebhook params) in
  trace o = [Ev post] /\ final_registry o = reg
  /\ (result o = inr tt <-> webhook_accepts (e n _ post) = true)
  /\ (forall u, result o = inr u -> webhook_accepts (e n _ post) = true).
Proof.
  unfold sendViaWebhook, perform. simpl.
  destruct (e n _ _) as [v|resp]; simpl.
  { repeat split; discriminate. }
  destruct (ok resp); simpl; [|repeat split; discriminate].
  destruct (json_body resp) as [v|w]; simpl; [repeat split; discriminate|].
  destruct (code w =? 0)%Z; simpl; repeat split; try discriminate;
    reflexivity.
Qed.

(** X1: whatever the answer, [sendViaWebhook] performs exactly one call, a
    POST to the webhook URL of the JSON document
    [{ msg_type: "interactive", card: { config: { wide_screen_mode: true },
    elements: [{ tag: "markdown", content }] } }]; without mentions, or
    with an empty list of them, [content] is the text itself, otherwise it
    is the text rendered by the mention renderer. *)
Theorem sendViaWebhook_single_post (params : SendWebhookParams) (e : env)
    (n : nat) (reg : registry) :
  exists content,
    trace (run e n reg (sendViaWebhook params))
    = [Ev (Fetch (webhookUrl params)
             (POST_JSON
                (JObject
                   [("msg_type", JString "interactive");
                    ("card",
                     JObject
                       [("config", JObject [("wide_screen_mode", JBool true)]);
                        ("elements",
                         JArray
                           [JObject [("tag", JString "markdown");
                                     ("content", JString content)]])])])))]
    /\ final_registry (run e n reg (sendViaWebhook params)) = reg
    /\ (mentions params = None \/ mentions params = Some [] ->
        content = text params)
    /\ (forall m ms, mentions params = Some (m :: ms) ->
        content = buildMentionedCardContent (m :: ms) (text params)).
Proof.
  destruct (run_sendViaWebhook params e n reg) as (Ht & Hr & _).
  exists (render_content params). repeat split; try assumption.
  - unfold render_content. now intros [-> | ->].
  - intros m ms Hm. unfold render_content. now rewrite Hm.
Qed.

(** X2: [sendViaWebhook] returns exactly when the POST is answered by an
    HTTP success whose JSON body has the code 0.  A rejected [fetch] and a
    body that is not JSON throw what they threw; a status that is not a
    success throws "Webhook request failed" with the status line; a code
    other than 0 throws "Webhook send failed" with the message of the
    response, or with the code when the message is missing or empty. *)
Theorem sendViaWebhook_result (params : SendWebhookParams) (e : env)
    (n : nat) (reg : registry) :
  let a := e n _ (Fetch (webhookUrl params)
                    (POST_JSON (card_payload (render_content params)))) in
  let o := run e n reg (sendViaWebhook params) in
  (result o = inr tt <-> webhook_accepts a = true)
  /\ (forall v, a = inl v -> result o = inl v)
  /\ (forall resp, a = inr resp -> ok resp = false ->
      result o = inl (mkError ("Webhook request failed: "
                               +:+ string_of_Z (status resp) +:+ " "
                               +:+ statusText resp)))
  /\ (forall resp v, a = inr resp -> ok resp = true ->
      json_body resp = inl v -> result o = inl v)
  /\ (forall resp w m, a = inr resp -> ok resp = true ->
      json_body resp = inr w -> code w <> 0%Z ->
      msg w = Some m -> m <> EmptyString ->
      result o = inl (mkError ("Webhook send failed: " +:+ m)))
  /\ (forall resp w, a = inr resp -> ok resp = true ->
      json_body resp = inr w -> code w <> 0%Z ->
      msg w = None \/ msg w = Some EmptyString ->
      result o = inl (mkError ("Webhook send failed: " +:+ "code "
                               +:+ string_of_Z (code w)))).
Proof.
  intros a o.
  destruct (run_sendViaWebhook params e n reg) as (_ & _ & Hiff & _).
  split; [exact Hiff|]. unfold o, sendViaWebhook, perform. simpl. fold a.
  repeat split.
  - intros v ->. reflexivity.
  - intros resp -> Hok. simpl. now rewrite Hok.
  - intros resp v -> Hok Hj. simpl. now rewrite Hok, Hj.
  - intros resp w m -> Hok Hj Hc Hm Hne. simpl. rewrite Hok, Hj. simpl.
    apply Z.eqb_neq in Hc. rewrite Hc, Hm. simpl.
    apply String.eqb_neq in Hne. now rewrite Hne.
  - intros resp w -> Hok Hj Hc Hm. simpl. rewrite Hok, Hj. simpl.
    apply Z.eqb_neq in Hc. rewrite Hc. now destruct Hm as [-> | ->].
Qed.

End WebhookSenderMore.

(** ** The orchestrator outside the fallback *)

Section OrchestratorEntry.
Import Js Eff Policy Spec Webhook ImageHost MediaFallback.
Context `{Platform}.

(** X3: when the primary send succeeds, or fails with an error that is not
    quota-classified, [sendMediaFeishuWithFallback] performs that one call
    and gives its answer unchanged: the result of the platform, or the very
    error it threw. *)
Theorem primary_answer_is_final (cfg : ClawdbotConfig) (to mediaUrl : string)
    (feishuCfg : FeishuConfig) (chatId : string)
    (e : env) (n : nat) (reg : registry) :
  channels_feishu cfg = Some feishuCfg ->
  normalizeFeishuTarget to = Some chatId ->
  chatId <> EmptyString ->
  match e n _ (SendMediaFeishu to mediaUrl) with
  | inr _ => True
  | inl error => isQuotaError error = false
  end ->
  run e n reg (sendMediaFeishuWithFallback cfg to mediaUrl)
  = {| trace := [Ev (SendMediaFeishu to mediaUrl)];
       final_registry := reg;
       result := e n _ (SendMediaFeishu to mediaUrl) |}.
Proof.
  intros Hcfg Hn Hne Ha. unfold sendMediaFeishuWithFallback.
  rewrite Hcfg, Hn. simpl. apply String.eqb_neq in Hne. rewrite Hne. simpl.
  destruct (e n _ _) as [error|r]; simpl; [|reflexivity].
  unfold on_primary_error. now rewrite Ha.
Qed.

(** X4: without a Feishu channel configuration, or with a target that does
    not normalize, [sendMediaFeishuWithFallback] throws at once, before any
    call: "Feishu channel not configured", or "Invalid Feishu target"
    followed by the target as given. *)
Theorem media_preconditions (cfg : ClawdbotConfig) (to mediaUrl : string)
    (e : env) (n : nat) (reg : registry) :
  let o := run e n reg (sendMediaFeishuWithFallback cfg to mediaUrl) in
  (channels_feishu cfg = None ->
   o = {| trace := []; final_registry := reg;
          result := inl (mkError "Feishu channel not configured") |})
  /\ (forall feishuCfg,
        channels_feishu cfg = Some feishuCfg ->
        normalizeFeishuTarget to = None
        \/ normalizeFeishuTarget to = Some EmptyString ->
        o = {| trace := []; final_registry := reg;
               result := inl (mkError ("Invalid Feishu target: " +:+ to)) |}).
Proof.
  intros o. unfold o, sendMediaFeishuWithFallback. split.
  - now intros ->.
  - intros feishuCfg -> [-> | ->]; reflexivity.
Qed.

End OrchestratorEntry.

(** ** No double delivery, no silent loss *)

Section Delivery.
Import Js Eff Policy Spec Webhook ImageHost MediaFallback.
Context `{Platform}.

Lemma all_calls_bind {A B : Type} (Q : event -> Prop) (p : prog A)
    (f : A -> prog B) :
  all_calls Q p -> (forall a, all_calls Q (f a)) -> all_calls Q (bind p f).
Proof.
  intros Hp Hf. induction p as [r|v|X c k IH]; simpl in *; auto.
  destruct Hp as [Hc Hk]. split; [exact Hc|]. intros x. apply IH, Hk.
Qed.

Lemma all_calls_try {A : Type} (Q : event -> Prop) (p : prog A)
    (h : value -> prog A) :
  all_calls Q p -> (forall v, all_calls Q (h v)) ->
  all_calls Q (try_catch p h).
Proof.
  intros Hp Hh. induction p as [r|v|X c k IH]; simpl in *; auto.
  destruct Hp as [Hc Hk]. split; [exact Hc|]. intros x. apply IH, Hk.
Qed.

Lemma all_calls_sound {R : Type} (Q : event -> Prop) (p : prog R) :
  all_calls Q p ->
  forall (e : env) (n : nat) (reg : registry),
    Forall Q (trace (run e n reg p)).
Proof.
  induction p as [r|v|X c k IH]; simpl; try (intros; constructor).
  intros [Hc Hk] e n reg.
  destruct (is_registry_call c); simpl; [apply IH, Hk|].
  constructor; [exact Hc | apply IH, Hk].
Qed.

Lemma form_post_not_a_post (url : string) (form : list (string * form_part)) :
  not_a_post (Ev (Fetch url (POST_FORM form))).
Proof. intros u [payload Hp]. inversion Hp. Qed.

Lemma get_not_a_post (url : string) : not_a_post (Ev (Fetch url GET)).
Proof. intros u [payload Hp]. inversion Hp. Qed.

Lemma uploadToCatbox_no_post (buffer : Buffer) :
  all_calls not_a_post (uploadToCatbox buffer).
Proof.
  unfold uploadToCatbox, perform. simpl.
  split; [apply form_post_not_a_post|].
  intros [v|resp]; simpl; [exact I|].
  destruct (ok resp); simpl; try exact I.
  destruct (negb (String.eqb (body resp) EmptyString)
            && startsWith "https://" (body resp)); exact I.
Qed.

Lemma uploadTo0x0_no_post (buffer : Buffer) :
  all_calls not_a_post (uploadTo0x0 buffer).
Proof.
  unfold uploadTo0x0, perform. simpl.
  split; [apply form_post_not_a_post|].
  intros [v|resp]; simpl; [exact I|].
  destruct (ok resp); simpl; try exact I.
  destruct (negb (String.eqb (body resp) EmptyString)
            && startsWith "https://" (trim (body resp))); exact I.
Qed.

(** The image hosts are reached by form uploads only. *)
Lemma uploadImageToHost_no_post (buffer : Buffer) :
  all_calls not_a_post (uploadImageToHost buffer).
Proof.
  unfold uploadImageToHost, services. cbn [try_services upload].
  apply all_calls_try.
  - apply all_calls_bind; [apply uploadToCatbox_no_post | intros; exact I].
  - intros v. apply all_calls_try.
    + apply all_calls_bind; [apply uploadTo0x0_no_post | intros; exact I].
    + intros v'. exact I.
Qed.

Lemma acquire_no_post (mediaUrl : string) :
  all_calls not_a_post (acquire mediaUrl).
Proof.
  unfold acquire, perform, ask. destruct (isLocalPath mediaUrl); simpl.
  - split; [intros u [p Hp]; inversion Hp|].
    intros [|]; simpl; [|exact I].
    split; [intros u [p Hp]; inversion Hp|]. now intros [v|b].
  - split; [apply get_not_a_post|].
    intros [v|resp]; simpl; [exact I|]. now destruct (ok resp).
Qed.

Lemma upload_no_post (buffer : Buffer) :
  all_calls not_a_post (perform (UploadImageFeishu buffer)).
Proof.
  unfold perform. simpl. split; [intros u [p Hp]; inversion Hp|].
  now intros [v|k].
Qed.

(** A run without JSON POSTs meets both delivery conditions as soon as it
    does not return. *)
Lemma final_of_no_post {R : Type} (e : env) (n : nat) (r : R)
    (o : outcome R) :
  Forall not_a_post (trace o) -> accepted_post_is_final e n r o.
Proof.
  intros Hno tr ev rest url Ht Hp _. exfalso.
  rewrite Ht in Hno. apply Forall_app in Hno as [_ Hno].
  inversion Hno as [|? ? Hev _]; subst. exact (Hev url Hp).
Qed.

(** [sendViaWebhook] followed by [return]: both delivery conditions. *)
Lemma run_send_then_ret {R : Type} (params : SendWebhookParams) (r : R)
    (e : env) (n : nat) (reg : registry) :
  let post := Fetch (webhookUrl params)
                (POST_JSON (card_payload (render_content params))) in
  let o := run e n reg (bind (sendViaWebhook params) (fun _ => Ret r)) in
  trace o = [Ev post]
  /\ final_registry o = reg
  /\ (webhook_accepts (e n _ post) = true -> result o = inr r)
  /\ (forall r', result o = inr r' ->
        r' = r /\ webhook_accepts (e n _ post) = true).
Proof.
  intros post o. unfold o. rewrite run_bind. cbv zeta.
  destruct (run_sendViaWebhook params e n reg) as (Ht & Hr & Hiff & Hret).
  fold post in Ht, Hiff, Hret. rewrite Ht, Hr.
  destruct (result (run e n reg (sendViaWebhook params))) as [v|[]] eqn:Hres;
    simpl.
  - repeat split; try discriminate.
    intros Hacc. apply Hiff in Hacc. discriminate.
  - repeat split; try congruence. apply (Hret tt eq_refl).
Qed.

Lemma send_then_ret_final {R : Type} (params : SendWebhookParams) (r : R)
    (e : env) (n : nat) (reg : registry) :
  accepted_post_is_final e n r
    (run e n reg (bind (sendViaWebhook params) (fun _ => Ret r))).
Proof.
  destruct (run_send_then_ret params r e n reg) as (Ht & _ & Hacc & _).
  intros tr ev rest url Htr Hp Hok. rewrite Ht in Htr.
  destruct tr as [|x tr].
  - simpl in Htr. injection Htr as <- <-. split; [reflexivity|].
    apply Hacc. rewrite Nat.add_0_r in Hok. exact Hok.
  - simpl in Htr. injection Htr as _ Htr. now destruct tr.
Qed.

Lemma send_then_ret_returns {R : Type} (params : SendWebhookParams) (r : R)
    (e : env) (n : nat) (reg : registry) :
  returns_after_accepted_post e n (webhookUrl params)
    (run e n reg (bind (sendViaWebhook params) (fun _ => Ret r))).
Proof.
  destruct (run_send_then_ret params r e n reg) as (Ht & _ & _ & Hret).
  intros r' Hr. destruct (Hret r' Hr) as [_ Hacc].
  eexists [], _. split; [exact Ht|]. split; [now eexists|].
  simpl. rewrite Nat.add_0_r. exact Hacc.
Qed.

(** *** Composition of the first condition *)

Lemma final_bind {A R : Type} (e : env) (n : nat) (reg : registry) (r : R)
    (p : prog A) (f : A -> prog R) :
  all_calls not_a_post p ->
  (forall a n' reg', accepted_post_is_final e n' r (run e n' reg' (f a))) ->
  accepted_post_is_final e n r (run e n reg (bind p f)).
Proof.
  intros Hp Hf. rewrite run_bind. cbv zeta.
  pose proof (all_calls_sound _ p Hp e n reg) as Hno.
  destruct (result (run e n reg p)) as [v|a].
  - now apply final_of_no_post.
  - intros tr ev rest url Ht Hpost Hok. cbn [trace result] in *.
    apply app_eq_app in Ht as [l [[Hl Hr]|[Hl Hr]]].
    + destruct l as [|x l].
      * rewrite app_nil_r in Hl. simpl in Hr. subst tr.
        apply (Hf a _ _ [] ev rest url); [now rewrite <- Hr | exact Hpost|].
        now rewrite Nat.add_0_r.
      * exfalso. simpl in Hr. injection Hr as <- _.
        rewrite Hl in Hno. apply Forall_app in Hno as [_ Hno].
        inversion Hno as [|? ? Hev _]; subst. exact (Hev url Hpost).
    + subst tr. rewrite length_app, Nat.add_assoc in Hok.
      now apply (Hf a _ _ l ev rest url).
Qed.

Lemma final_try {R : Type} (e : env) (n : nat) (reg : registry) (r : R)
    (p : prog R) (h : value -> prog R) :
  accepted_post_is_final e n r (run e n reg p) ->
  (forall v n' reg', accepted_post_is_final e n' r (run e n' reg' (h v))) ->
  accepted_post_is_final e n r (run e n reg (try_catch p h)).
Proof.
  intros Hp Hh. rewrite run_try_catch. cbv zeta.
  destruct (result (run e n reg p)) as [v|a] eqn:Hres.
  - intros tr ev rest url Ht Hpost Hok. cbn [trace result] in *.
    apply app_eq_app in Ht as [l [[Hl Hr]|[Hl Hr]]].
    + destruct l as [|x l].
      * rewrite app_nil_r in Hl. simpl in Hr. subst tr.
        apply (Hh v _ _ [] ev rest url); [now rewrite <- Hr | exact Hpost|].
        now rewrite Nat.add_0_r.
      * exfalso. simpl in Hr. injection Hr as <- Hr.
        destruct (Hp tr ev l url Hl Hpost Hok) as [_ Hret]. congruence.
    + subst tr. rewrite length_app, Nat.add_assoc in Hok.
      now apply (Hh v _ _ l ev rest url).
  - intros tr ev rest url Ht Hpost Hok. cbn [trace result] in *.
    destruct (Hp tr ev rest url Ht Hpost Hok) as [-> Hret].
    split; [reflexivity | congruence].
Qed.

(** *** Composition of the second condition *)

Lemma returns_bind {A R : Type} (e : env) (n : nat) (reg : registry)
    (url : string) (p : prog A) (f : A -> prog R) :
  (forall a n' reg',
     returns_after_accepted_post e n' url (run e n' reg' (f a))) ->
  returns_after_accepted_post e n url (run e n reg (bind p f)).
Proof.
  intros Hf. rewrite run_bind. cbv zeta.
  destruct (result (run e n reg p)) as [v|a]; [intros r Hr; discriminate|].
  intros r Hr. cbn [trace result] in *.
  destruct (Hf a _ _ r Hr) as (tr & ev & Ht & Hpost & Hok).
  exists (trace (run e n reg p) ++ tr), ev.
  rewrite Ht, app_assoc, length_app, Nat.add_assoc. auto.
Qed.

Lemma returns_try {R : Type} (e : env) (n : nat) (reg : registry)
    (url : string) (p : prog R) (h : value -> prog R) :
  returns_after_accepted_post e n url (run e n reg p) ->
  (forall v n' reg',
     returns_after_accepted_post e n' url (run e n' reg' (h v))) ->
  returns_after_accepted_post e n url (run e n reg (try_catch p h)).
Proof.
  intros Hp Hh. rewrite run_try_catch. cbv zeta.
  destruct (result (run e n reg p)) as [v|a] eqn:Hres.
  - intros r Hr. cbn [trace result] in *.
    destruct (Hh v _ _ r Hr) as (tr & ev & Ht & Hpost & Hok).
    exists (trace (run e n reg p) ++ tr), ev.
    rewrite Ht, app_assoc, length_app, Nat.add_assoc. auto.
  - intros r Hr. cbn [trace result] in *. apply (Hp a). exact Hres.
Qed.

(** *** The blocks of the orchestrator *)

Lemma host_part_no_post (buffer : Buffer) (quota : bool) :
  all_calls not_a_post
    (if quota then
       try_catch
         (bind (uploadImageToHost buffer)
               (fun result => Ret (Some (url result))))
         (fun _ => Ret None)
     else Ret None).
Proof.
  destruct quota; [|exact I].
  apply all_calls_try; [|intros; exact I].
  apply all_calls_bind; [apply uploadImageToHost_no_post | intros; exact I].
Qed.

Lemma on_upload_error_final (webhookUrl chatId mediaUrl : string)
    (buffer : Buffer) (uploadError : value) (e : env) (n : nat)
    (reg : registry) :
  accepted_post_is_final e n (webhook_sent chatId)
    (run e n reg (on_upload_error webhookUrl chatId mediaUrl buffer uploadError)).
Proof.
  unfold on_upload_error. apply final_bind; [apply host_part_no_post|].
  intros imageUrl n' reg'. apply send_then_ret_final.
Qed.

Lemma on_upload_error_returns (webhookUrl chatId mediaUrl : string)
    (buffer : Buffer) (uploadError : value) (e : env) (n : nat)
    (reg : registry) :
  returns_after_accepted_post e n webhookUrl
    (run e n reg (on_upload_error webhookUrl chatId mediaUrl buffer uploadError)).
Proof.
  unfold on_upload_error. apply returns_bind.
  intros imageUrl n' reg'.
  apply (send_then_ret_returns (text_params webhookUrl _)).
Qed.

Lemma image_fallback_final (webhookUrl chatId mediaUrl : string)
    (e : env) (n : nat) (reg : registry) :
  accepted_post_is_final e n (webhook_sent chatId)
    (run e n reg (image_fallback webhookUrl chatId mediaUrl)).
Proof.
  unfold image_fallback. apply final_try.
  - apply final_bind; [apply acquire_no_post|].
    intros buffer n' reg'. apply final_try.
    + apply final_bind; [apply upload_no_post|].
      intros key n'' reg''. apply send_then_ret_final.
    + intros v n'' reg''. apply on_upload_error_final.
  - intros v n' reg'. apply send_then_ret_final.
Qed.

Lemma image_fallback_returns (webhookUrl chatId mediaUrl : string)
    (e : env) (n : nat) (reg : registry) :
  returns_after_accepted_post e n webhookUrl
    (run e n reg (image_fallback webhookUrl chatId mediaUrl)).
Proof.
  unfold image_fallback. apply returns_try.
  - apply returns_bind. intros buffer n' reg'. apply returns_try.
    + apply returns_bind. intros key n'' reg''.
      apply (send_then_ret_returns (image_params webhookUrl key)).
    + intros v n'' reg''. apply on_upload_error_returns.
  - intros v n' reg'.
    apply (send_then_ret_returns (text_params webhookUrl _)).
Qed.

Lemma on_primary_error_final (feishuCfg : FeishuConfig)
    (chatId mediaUrl : string) (error : value) (e : env) (n : nat)
    (reg : registry) :
  accepted_post_is_final e n (webhook_sent chatId)
    (run e n reg (on_primary_error feishuCfg chatId mediaUrl error)).
Proof.
  unfold on_primary_error.
  destruct (negb (isQuotaError error));
    [apply final_of_no_post; constructor|].
  destruct (negb (truthy_str _)); [apply final_of_no_post; constructor|].
  destruct (negb (isImage mediaUrl)).
  - apply send_then_ret_final.
  - apply image_fallback_final.
Qed.

Lemma on_primary_error_returns (feishuCfg : FeishuConfig)
    (chatId mediaUrl : string) (error : value) (e : env) (n : nat)
    (reg : registry) (r : FeishuSendResult) :
  result (run e n reg (on_primary_error feishuCfg chatId mediaUrl error))
  = inr r ->
  exists webhookUrl,
    resolveWebhookUrl feishuCfg chatId = Some webhookUrl
    /\ isQuotaError error = true
    /\ returns_after_accepted_post e n webhookUrl
         (run e n reg (on_primary_error feishuCfg chatId mediaUrl error)).
Proof.
  unfold on_primary_error.
  destruct (isQuotaError error); simpl; [|discriminate].
  destruct (resolveWebhookUrl feishuCfg chatId) as [webhookUrl|];
    simpl; [|discriminate].
  destruct (String.eqb webhookUrl EmptyString); simpl; [discriminate|].
  intros _. exists webhookUrl. repeat split.
  destruct (isImage mediaUrl); simpl.
  - apply image_fallback_returns.
  - apply (send_then_ret_returns (text_params webhookUrl _)).
Qed.

(** Every normal return of the fallback gives the sentinel result. *)
Lemma on_primary_error_sentinel (feishuCfg : FeishuConfig)
    (chatId mediaUrl : string) (error : value) (e : env) (n : nat)
    (reg : registry) (r : FeishuSendResult) :
  result (run e n reg (on_primary_error feishuCfg chatId mediaUrl error))
  = inr r ->
  r = webhook_sent chatId.
Proof.
  intros Hr.
  destruct (on_primary_error_returns _ _ _ _ _ _ _ _ Hr)
    as (webhookUrl & _ & _ & Hret).
  destruct (Hret r Hr) as (tr & ev & Ht & Hpost & Hok).
  destruct (on_primary_error_final feishuCfg chatId mediaUrl error e n reg
              tr ev [] webhookUrl Ht Hpost Hok) as [_ Hres].
  congruence.
Qed.

(** X5: in every run of [sendMediaFeishuWithFallback], a POST that the
    webhook takes (HTTP success, code 0) is the last call of the run, and
    the run returns the sentinel result for the normalized target: a
    delivered message is never followed by another message or by an
    error. *)
Theorem accepted_post_ends_the_run (cfg : ClawdbotConfig)
    (to mediaUrl : string) (e : env) (n : nat) (reg : registry)
    (tr : list event) (ev : event) (rest : list event) (url : string) :
  let o := run e n reg (sendMediaFeishuWithFallback cfg to mediaUrl) in
  trace o = tr ++ ev :: rest ->
  is_post_to url ev ->
  answered_ok e (n + length tr) ev = true ->
  rest = []
  /\ exists chatId,
       normalizeFeishuTarget to = Some chatId
       /\ result o = inr (webhook_sent chatId).
Proof.
  intros o. unfold o, sendMediaFeishuWithFallback.
  destruct (channels_feishu cfg) as [feishuCfg|];
    [|intros Ht; now destruct tr].
  destruct (normalizeFeishuTarget to) as [chatId|] eqn:Hn;
    [|intros Ht; now destruct tr].
  simpl. destruct (String.eqb chatId EmptyString);
    [intros Ht; now destruct tr|].
  simpl. destruct (e n _ (SendMediaFeishu to mediaUrl)) as [error|r]; simpl.
  - intros Ht Hpost Hok. destruct tr as [|x tr].
    + simpl in Ht. injection Ht as <- _. destruct Hpost as [p Hp].
      inversion Hp.
    + simpl in Ht. injection Ht as _ Ht. simpl in Hok.
      rewrite <- Nat.add_succ_comm in Hok.
      destruct (on_primary_error_final feishuCfg chatId mediaUrl error
                  e (S n) reg tr ev rest url Ht Hpost Hok) as [-> Hres].
      split; [reflexivity|]. now exists chatId.
  - intros Ht Hpost Hok. destruct tr as [|x tr].
    + simpl in Ht. injection Ht as <- _. destruct Hpost as [p Hp].
      inversion Hp.
    + simpl in Ht. injection Ht as _ Ht. now destruct tr.
Qed.

(** X6: when the primary send fails and [sendMediaFeishuWithFallback]
    still returns, the error was quota-classified, a webhook URL is
    configured for the normalized target, the result is the sentinel
    [webhook-sent] for that target, and the last call of the run is a POST
    to that webhook which the webhook took: the failure is never swallowed
    without a delivered message. *)
Theorem return_means_delivered (cfg : ClawdbotConfig)
    (to mediaUrl : string) (e : env) (n : nat) (reg : registry)
    (error : value) (r : FeishuSendResult) :
  let o := run e n reg (sendMediaFeishuWithFallback cfg to mediaUrl) in
  e n _ (SendMediaFeishu to mediaUrl) = inl error ->
  result o = inr r ->
  exists feishuCfg chatId webhookUrl tr ev,
    channels_feishu cfg = Some feishuCfg
    /\ normalizeFeishuTarget to = Some chatId
    /\ resolveWebhookUrl feishuCfg chatId = Some webhookUrl
    /\ isQuotaError error = true
    /\ r = webhook_sent chatId
    /\ trace o = tr ++ [ev]
    /\ is_post_to webhookUrl ev
    /\ answered_ok e (n + length tr) ev = true.
Proof.
  intros o He. unfold o, sendMediaFeishuWithFallback.
  destruct (channels_feishu cfg) as [feishuCfg|]; [|discriminate].
  destruct (normalizeFeishuTarget to) as [chatId|] eqn:Hn; [|discriminate].
  simpl. destruct (String.eqb chatId EmptyString); [discriminate|].
  simpl. rewrite He. simpl. intros Hr.
  destruct (on_primary_error_returns _ _ _ _ _ _ _ _ Hr)
    as (webhookUrl & Hw & Hq & Hret).
  destruct (Hret r Hr) as (tr & ev & Ht & Hpost & Hok).
  exists feishuCfg, chatId, webhookUrl, (Ev (SendMediaFeishu to mediaUrl) :: tr), ev.
  repeat split; try assumption.
  - now apply on_primary_error_sentinel in Hr.
  - now rewrite Ht.
  - simpl. now rewrite <- Nat.add_succ_comm.
Qed.

End Delivery.

(** ** The upload-error block, the acquisition, the classification *)

Section FallbackBlocks.
Import Js Eff Policy Spec Webhook ImageHost MediaFallback.
Context `{Platform}.

Lemma startsWith_nonempty (p s : string) :
  p <> EmptyString -> startsWith p s = true -> s <> EmptyString.
Proof. intros Hp Hs ->. destruct p; [congruence | discriminate]. Qed.

(** What a successful run of the multiplexer returns. *)
Lemma uploadImageToHost_returns (buffer : Buffer) (e : env) (n : nat)
    (reg : registry) (r : ImageHostUploadResult) :
  result (run e n reg (uploadImageToHost buffer)) = inr r ->
  (exists resp,
     startsWith "https://" (body resp) = true
     /\ r = {| url := body resp; deleteUrl := None |})
  \/ (exists resp,
        startsWith "https://" (trim (body resp)) = true
        /\ r = {| url := trim (body resp); deleteUrl := None |}).
Proof.
  unfold uploadImageToHost, services. cbn [try_services upload].
  rewrite run_try_catch, run_bind_ret. cbv zeta.
  destruct (run_uploadToCatbox buffer e n reg) as (Hc & Hcr & Hci).
  destruct (result (run e n reg (uploadToCatbox buffer))) as [v|r1] eqn:Hr1.
  - cbn [result]. rewrite run_try_catch, run_bind_ret. cbv zeta.
    set (z := run e _ _ (uploadTo0x0 buffer)).
    destruct (run_uploadTo0x0 buffer e (n + length (trace (run e n reg (uploadToCatbox buffer))))
                (final_registry (run e n reg (uploadToCatbox buffer))))
      as (_ & _ & Hzi).
    fold z in Hzi. destruct (result z) as [v2|r2] eqn:Hr2; cbn [result].
    + simpl. discriminate.
    + intros [= <-]. right.
      destruct (proj1 (Hzi r2) eq_refl) as (resp & _ & _ & Hs & ->).
      now exists resp.
  - cbn [result]. intros [= <-]. left.
    destruct (proj1 (Hci r1) eq_refl) as (resp & _ & _ & Hs & ->).
    now exists resp.
Qed.

Lemma uploadImageToHost_url_truthy (buffer : Buffer) (e : env) (n : nat)
    (reg : registry) (r : ImageHostUploadResult) :
  result (run e n reg (uploadImageToHost buffer)) = inr r ->
  truthy_str (Some (url r)) = true.
Proof.
  intros Hr. simpl. apply negb_true_iff, String.eqb_neq.
  destruct (uploadImageToHost_returns buffer e n reg r Hr)
    as [(resp & Hs & ->)|(resp & Hs & ->)];
    cbn [url]; eapply startsWith_nonempty; try exact Hs; discriminate.
Qed.

(** X7: the message the upload-error block posts.  For an upload error
    that is not quota-classified it contacts no image host and posts the
    plain link.  For a quota-classified one it first runs the image host
    multiplexer, then posts the link of the hosted image when a host took
    it, and the "upload limited" notice with the original reference when
    every host failed.  In each case the POST is the last call. *)
Theorem fallback_text_selection (webhookUrl chatId mediaUrl : string)
    (buffer : Buffer) (uploadError : value) (e : env) (n : nat)
    (reg : registry) :
  let h := run e n reg (uploadImageToHost buffer) in
  let o := run e n reg
             (on_upload_error webhookUrl chatId mediaUrl buffer uploadError) in
  (isQuotaError uploadError = false ->
   trace o = [text_post webhookUrl (link_prefix +:+ mediaUrl)])
  /\ (isQuotaError uploadError = true ->
      trace o
      = trace h
        ++ [text_post webhookUrl
              match result h with
              | inr r => hosted_prefix +:+ url r
              | inl _ => limited_prefix +:+ mediaUrl
              end]).
Proof.
  intros h o. unfold o, on_upload_error. split; intros Hq; rewrite Hq.
  - cbn [bind truthy_str].
    destruct (run_send_then_ret
                (text_params webhookUrl (link_prefix +:+ mediaUrl))
                (webhook_sent chatId) e n reg) as (Ht & _).
    rewrite Ht. reflexivity.
  - rewrite run_bind. cbv zeta. rewrite run_try_catch, run_bind. fold h.
    cbv zeta.
    destruct (result h) as [v|r] eqn:Hr; cbn [result trace run].
    + rewrite app_nil_r. cbn [truthy_str].
      match goal with
      | |- context [run ?e' ?n' ?reg' (bind (sendViaWebhook ?ps) ?k)] =>
          destruct (run_send_then_ret ps (webhook_sent chatId) e' n' reg')
            as (Ht & _)
      end.
      rewrite Ht. reflexivity.
    + rewrite app_nil_r.
      rewrite (uploadImageToHost_url_truthy buffer e n reg r Hr).
      match goal with
      | |- context [run ?e' ?n' ?reg' (bind (sendViaWebhook ?ps) ?k)] =>
          destruct (run_send_then_ret ps (webhook_sent chatId) e' n' reg')
            as (Ht & _)
      end.
      rewrite Ht. reflexivity.
Qed.

(** X8: every URL [uploadImageToHost] returns begins with ["https://"], and
    no delete URL comes with it. *)
Theorem hosted_url_is_https (buffer : Buffer) (e : env) (n : nat)
    (reg : registry) (r : ImageHostUploadResult) :
  result (run e n reg (uploadImageToHost buffer)) = inr r ->
  startsWith "https://" (url r) = true /\ deleteUrl r = None.
Proof.
  intros Hr.
  destruct (uploadImageToHost_returns buffer e n reg r Hr)
    as [(resp & Hs & ->)|(resp & Hs & ->)]; now split.
Qed.

Lemma replace_from_absent (pat rep before s : string) :
  includes pat s = false -> replace_from pat rep before s = s.
Proof.
  revert before. induction s as [|c s IH]; intros before Hi.
  - rewrite includes_nil in Hi. cbn [replace_from]. now rewrite Hi.
  - rewrite includes_cons in Hi. apply orb_false_iff in Hi as [Hp Hi].
    cbn [replace_from]. rewrite Hp. now rewrite IH.
Qed.

(** A replacement without a dollar sign stands for itself. *)
Lemma get_substitution_plain (matched before after rep : string) :
  includes "$" rep = false ->
  get_substitution matched before after rep = rep.
Proof.
  induction rep as [|c r IH]; intros Hi; [reflexivity|].
  rewrite includes_cons in Hi. apply orb_false_iff in Hi as [Hp Hi].
  change (String.prefix "$" (String c r))
    with (if ascii_dec "$" c then String.prefix EmptyString r else false) in Hp.
  rewrite prefix_nil in Hp.
  destruct (ascii_dec "$" c) as [Heq|Hne]; [discriminate|].
  cbn [get_substitution].
  replace (Ascii.eqb c "$") with false
    by (symmetry; apply Ascii.eqb_neq; congruence).
  now rewrite IH.
Qed.

Lemma replace_leading_tilde (rep rest : string) :
  replace_first "~" rep ("~" +:+ rest)
  = get_substitution "~" EmptyString rest rep +:+ rest.
Proof.
  unfold replace_first. change ("~" +:+ rest) with (String "~" rest).
  cbn [replace_from]. rewrite prefix_cons.
  destruct (ascii_dec "~" "~") as [_|Hne]; [|congruence].
  rewrite prefix_nil. reflexivity.
Qed.

Lemma startsWith_leading_tilde (rest : string) :
  startsWith "~" ("~" +:+ rest) = true.
Proof.
  unfold startsWith. change ("~" +:+ rest) with (String "~" rest).
  rewrite prefix_cons. destruct (ascii_dec "~" "~") as [_|Hne]; [|congruence].
  apply prefix_nil.
Qed.

(** X9: the local path the acquisition reads.  A leading [~] is replaced
    by the HOME directory of the process when HOME holds no dollar sign
    (the replacement of [String.prototype.replace] gives dollar signs a
    meaning), and by nothing when HOME is not set; a reference without a
    leading [~] and without ["file://"] in it is taken as it is. *)
Theorem filePath_resolution :
  (forall rest home,
     env_HOME = Some home -> ~ Contains "$" home ->
     filePath ("~" +:+ rest) = home +:+ rest)
  /\ (forall rest, env_HOME = None -> filePath ("~" +:+ rest) = rest)
  /\ (forall mediaUrl,
        startsWith "~" mediaUrl = false ->
        ~ Contains "file://" mediaUrl ->
        filePath mediaUrl = mediaUrl).
Proof.
  split; [|split].
  - intros rest home Hh Hd. unfold filePath.
    rewrite startsWith_leading_tilde, replace_leading_tilde, Hh.
    cbn [default from_option id]. rewrite get_substitution_plain; [reflexivity|].
    destruct (includes "$" home) eqn:Hi; [|reflexivity].
    apply includes_iff in Hi. contradiction.
  - intros rest Hh. unfold filePath.
    rewrite startsWith_leading_tilde, replace_leading_tilde, Hh. reflexivity.
  - intros mediaUrl Ht Hc. unfold filePath. rewrite Ht.
    apply replace_from_absent.
    destruct (includes "file://" mediaUrl) eqn:Hi; [|reflexivity].
    apply includes_iff in Hi. contradiction.
Qed.

(** A HOME directory with [$&] in its name: the replacement puts the
    matched [~] there. *)
Example replace_interprets_dollar :
  replace_first "~" "/home/a$&b" "~/a.png" = "/home/a~b/a.png".
Proof. reflexivity. Qed.

(** X10: the acquisition of a local reference asks whether the resolved
    file exists before anything else; a missing file is not read and
    gives "Local file not found" with the resolved path, an existing file
    is read once and its content, or the error of the read, is the outcome.
    A remote reference is fetched with one GET: a rejected fetch gives its
    error, a status that is not a success gives "Failed to fetch image from
    URL" with the status, a success gives the body. *)
Theorem acquire_outcome (mediaUrl : string) (e : env) (n : nat)
    (reg : registry) :
  let o := run e n reg (acquire mediaUrl) in
  let path := filePath mediaUrl in
  (isLocalPath mediaUrl = true ->
   (e n _ (ExistsSync path) = false ->
    trace o = [Ev (ExistsSync path)]
    /\ result o = inl (mkError ("Local file not found: " +:+ path)))
   /\ (e n _ (ExistsSync path) = true ->
       trace o = [Ev (ExistsSync path); Ev (ReadFileSync path)]
       /\ result o = e (S n) _ (ReadFileSync path)))
  /\ (isLocalPath mediaUrl = false ->
      trace o = [Ev (Fetch mediaUrl GET)]
      /\ match e n _ (Fetch mediaUrl GET) with
         | inl v => result o = inl v
         | inr resp =>
             if ok resp then result o = inr (body resp)
             else result o
                  = inl (mkError ("Failed to fetch image from URL: "
                                  +:+ string_of_Z (status resp)))
         end).
Proof.
  intros o path. unfold o, acquire. split; intros Hl; rewrite Hl.
  - fold path. unfold ask, perform. simpl. split; intros He; rewrite He; simpl.
    + split; reflexivity.
    + now destruct (e (S n) _ _).
  - unfold perform. simpl.
    destruct (e n _ _) as [v|resp]; simpl; [now split|].
    destruct (ok resp); simpl; now split.
Qed.

Lemma lower_char_plain (ch : ascii) :
  plain_char (lower_char ch) -> plain_char ch.
Proof.
  intros [Hs Hd]. split; intros ->; [apply Hs | apply Hd]; reflexivity.
Qed.

Lemma toLowerCase_plain (s : string) : plain (toLowerCase s) -> plain s.
Proof.
  unfold plain. induction s as [|ch s IH]; simpl; intros Hp; [constructor|].
  inversion Hp; subst. constructor; [now apply lower_char_plain | now apply IH].
Qed.

Lemma toLowerCase_nonempty (s : string) :
  toLowerCase s <> EmptyString -> s <> EmptyString.
Proof. intros Hs ->. now apply Hs. Qed.

(** X11: the image classification looks at the extension in lower case: a
    reference whose last segment has a name, a dot and one of jpg, jpeg,
    png, gif, webp, bmp, ico, tiff, in any mix of upper and lower case, is
    an image. *)
Theorem isImage_any_case (pre : string) (c : ascii) (e : string) :
  c <> "/"%char ->
  In (toLowerCase e) image_extension_names ->
  isImage (pre +:+ String c (String "." e)) = true.
Proof.
  intros Hc Hin. unfold isImage.
  assert (Hp : plain (toLowerCase e) /\ toLowerCase e <> EmptyString).
  { unfold image_extension_names in Hin. simpl in Hin.
    repeat (destruct Hin as [<-|Hin];
            [split; [repeat constructor; discriminate | discriminate]|]).
    contradiction. }
  destruct Hp as [Hp Hne].
  rewrite extname_named;
    [|now apply toLowerCase_plain | now apply toLowerCase_nonempty | exact Hc].
  cbn [toLowerCase]. change (lower_char ".") with "."%char.
  unfold image_extension_names in Hin. simpl in Hin.
  repeat (destruct Hin as [<-|Hin]; [reflexivity|]). contradiction.
Qed.

End FallbackBlocks.

(** ** The outbound facade, request by request *)

Section OutboundMore.
Import Js Eff Policy Spec Webhook MediaFallback Outbound.
Context `{Platform}.

(** X12: [sendMedia] sends the text first and awaits it: when that send
    fails, the request fails with its error after this one call, whatever
    the media URL is; the media is not attempted. *)
Theorem text_failure_stops_request (cfg : ClawdbotConfig)
    (to text : string) (mediaUrl : option string)
    (e : env) (n : nat) (reg : registry) (err : value) :
  has_text (Some text) = true ->
  e n _ (SendMessageFeishuWithFallback to text) = inl err ->
  run e n reg (sendMedia cfg to (Some text) mediaUrl)
  = {| trace := [Ev (SendMessageFeishuWithFallback to text)];
       final_registry := reg;
       result := inl err |}.
Proof.
  intros Ht He. unfold sendMedia. rewrite Ht. unfold perform. simpl.
  now rewrite He.
Qed.

(** X13: a media request without text returns the result of the media
    chain under the channel name "feishu" when the chain returns; when the
    chain throws, whatever it threw, one more call follows, the send of the
    link to the media through the text delivery path, and its result or
    its error is the outcome of the request. *)
Theorem media_failure_degrades_to_link (cfg : ClawdbotConfig)
    (to : string) (text : option string) (mediaUrl : string)
    (e : env) (n : nat) (reg : registry) :
  has_text text = false ->
  mediaUrl <> EmptyString ->
  let m := run e n reg (sendMediaFeishuWithFallback cfg to mediaUrl) in
  let o := run e n reg (sendMedia cfg to text (Some mediaUrl)) in
  let link := SendMessageFeishuWithFallback to
                (Outbound.link_prefix +:+ mediaUrl) in
  match result m with
  | inr r => trace o = trace m /\ result o = inr (feishu_result r)
  | inl _ =>
      trace o = trace m ++ [Ev link]
      /\ result o
         = match e (n + length (trace m)) _ link with
           | inr r => inr (feishu_result r)
           | inl v => inl v
           end
  end.
Proof.
  intros Ht Hne m o link. unfold o, sendMedia. rewrite Ht.
  cbn [bind truthy_str]. apply String.eqb_neq in Hne. rewrite Hne.
  cbn [negb default from_option id]. rewrite run_try_catch, run_bind.
  cbv zeta.
  change (run e n reg (sendMediaFeishuWithFallback cfg to mediaUrl)) with m.
  destruct (result m) as [v|r]; cbn [result trace].
  - unfold perform. cbn [bind run is_registry_call answer fst snd lift].
    fold link. cbn [trace result].
    destruct (e (n + length (trace m)) _ link); cbn; now split.
  - rewrite app_nil_r. now split.
Qed.

(** X14: a request with neither a text that has a visible character nor a
    media URL is a plain [sendText] of the text as given, of the empty text
    when none was given: one message is sent even though there is nothing
    to show. *)
Theorem empty_request_is_sendText (cfg : ClawdbotConfig) (to : string)
    (text mediaUrl : option string) :
  has_text text = false ->
  truthy_str mediaUrl = false ->
  sendMedia cfg to text mediaUrl
  = sendText cfg to (default EmptyString text).
Proof.
  intros Ht Hm. unfold sendMedia, sendText. now rewrite Ht, Hm.
Qed.

End OutboundMore.

(** ** The typing indicator, case by case *)

Section TypingMore.
Import Js Eff Policy Spec Webhook Typing.
Context `{Platform}.

(** X15: the webhook acknowledgment is attempted only for a
    quota-classified failure with a chat id that normalizes and has a
    webhook URL.  When the creation of the reaction fails and one of these
    is missing, the call performs nothing more, registers nothing and
    returns the state without a reaction id. *)
Theorem no_acknowledgment_without_quota_and_webhook (cfg : ClawdbotConfig)
    (feishuCfg : FeishuConfig) (m : string) (chatId : option string)
    (e : env) (n : nat) (reg : registry) (err : value) :
  m ∉ reg ->
  channels_feishu cfg = Some feishuCfg ->
  e n _ (ReactionCreate m TYPING_EMOJI) = inl err ->
  isQuotaError err = false
  \/ truthy_str chatId = false
  \/ truthy_str (normalizeFeishuTarget (default EmptyString chatId)) = false
  \/ truthy_str
       (resolveWebhookUrl feishuCfg
          (default EmptyString
             (normalizeFeishuTarget (default EmptyString chatId)))) = false ->
  run e n reg (addTypingIndicator cfg m chatId)
  = {| trace := [Ev (ReactionCreate m TYPING_EMOJI)];
       final_registry := reg;
       result := inr (no_reaction m) |}.
Proof.
  intros Hm Hcfg He Hno.
  rewrite (run_add_fresh cfg feishuCfg) by assumption. cbv zeta.
  rewrite He. unfold webhook_ack.
  destruct Hno as [Hq|[Hc|[Ht|Hw]]].
  - now rewrite Hq.
  - rewrite Hc, andb_false_r. reflexivity.
  - destruct (isQuotaError err && truthy_str chatId); [|reflexivity].
    now rewrite Ht.
  - destruct (isQuotaError err && truthy_str chatId); [|reflexivity].
    destruct (truthy_str (normalizeFeishuTarget _)); [|reflexivity].
    now rewrite Hw.
Qed.

(** X16: without a Feishu channel configuration neither operation performs
    a call: [addTypingIndicator] returns the state without a reaction id
    and registers nothing, [removeTypingIndicator] returns at once. *)
Theorem typing_needs_configuration (cfg : ClawdbotConfig) (m : string)
    (chatId : option string) (state : TypingIndicatorState)
    (e : env) (n : nat) (reg : registry) :
  channels_feishu cfg = None ->
  run e n reg (addTypingIndicator cfg m chatId)
  = {| trace := []; final_registry := reg; result := inr (no_reaction m) |}
  /\ run e n reg (removeTypingIndicator cfg state)
     = {| trace := []; final_registry := reg; result := inr tt |}.
Proof.
  intros Hcfg. split.
  - unfold addTypingIndicator, ask. simpl. rewrite Hcfg. now case_bool_decide.
  - unfold removeTypingIndicator. rewrite Hcfg.
    now destruct (negb (truthy_str (reactionId state))).
Qed.

(** X17: adding and then removing.  The removal that follows an addition
    deletes exactly the reaction the addition created, on the same
    message, when the platform gave a reaction id; after any other
    addition (suppressed, acknowledged through the webhook, failed, or
    created without an id) it performs no call.  The pair never throws. *)
Theorem add_then_remove (cfg : ClawdbotConfig) (m : string)
    (chatId : option string) (e : env) (n : nat) (reg : registry) :
  let a := run e n reg (addTypingIndicator cfg m chatId) in
  let o := run e n reg (bind (addTypingIndicator cfg m chatId)
                             (removeTypingIndicator cfg)) in
  result o = inr tt
  /\ final_registry o = final_registry a
  /\ exists state,
       result a = inr state
       /\ messageId state = m
       /\ trace o
          = trace a
            ++ match reactionId state with
               | Some rid =>
                   if String.eqb rid EmptyString then []
                   else [Ev (ReactionDelete m rid)]
               | None => []
               end
       /\ (forall rid, reactionId state = Some rid ->
             (m ∉ reg)
             /\ e n _ (ReactionCreate m TYPING_EMOJI) = inr (Some rid)).
Proof.
  intros a o.
  assert (Ha : exists state,
             result a = inr state /\ messageId state = m
             /\ (forall rid, reactionId state = Some rid ->
                   (m ∉ reg)
                   /\ e n _ (ReactionCreate m TYPING_EMOJI) = inr (Some rid))
             /\ (forall rid, reactionId state = Some rid ->
                   exists feishuCfg, channels_feishu cfg = Some feishuCfg)).
  { unfold a. destruct (decide (m ∈ reg)) as [Hm|Hm].
    { rewrite add_suppressed by assumption. eexists. repeat split; discriminate. }
    destruct (channels_feishu cfg) as [feishuCfg|] eqn:Hcfg.
    2:{ unfold addTypingIndicator, ask. simpl.
        rewrite bool_decide_eq_false_2 by assumption. rewrite Hcfg.
        eexists. repeat split; discriminate. }
    rewrite (run_add_fresh cfg feishuCfg) by assumption. cbv zeta.
    destruct (e n _ _) as [err|rid] eqn:He.
    - destruct (run_webhook_ack feishuCfg m chatId err e (S n) reg)
        as [[-> _]|(-> & _)]; eexists; repeat split; discriminate.
    - eexists. split; [reflexivity|]. split; [reflexivity|].
      cbn [reactionId]. split.
      + intros r ->. now split.
      + intros r _. now exists feishuCfg. }
  destruct Ha as (state & Hres & Hmid & Hrid & Hcfg).
  unfold o. rewrite run_bind. fold a. cbv zeta. rewrite Hres.
  cbn [result trace final_registry].
  assert (Hrm : let r := run e (n + length (trace a)) (final_registry a)
                           (removeTypingIndicator cfg state) in
                result r = inr tt /\ final_registry r = final_registry a
                /\ trace r = match reactionId state with
                             | Some rid =>
                                 if String.eqb rid EmptyString then []
                                 else [Ev (ReactionDelete m rid)]
                             | None => []
                             end).
  { unfold removeTypingIndicator. rewrite Hmid.
    destruct (reactionId state) as [rid|] eqn:Hr; [|now repeat split].
    cbn [truthy_str default].
    destruct (String.eqb rid EmptyString); [now repeat split|].
    destruct (Hcfg rid eq_refl) as [feishuCfg ->].
    unfold perform. cbn [negb]. simpl.
    destruct (e (n + length (trace a)) _ (ReactionDelete m rid)) as [v|[]];
      cbn [lift try_catch run result trace
                                          final_registry];
      repeat split; reflexivity. }
  destruct Hrm as (Hr1 & Hr2 & Hr3).
  split; [exact Hr1|]. split; [exact Hr2|].
  exists state. split; [reflexivity|]. split; [exact Hmid|].
  split; [now rewrite Hr3 | exact Hrid].
Qed.

End TypingMore.

(** ** The further properties on concrete runs *)

Section MoreScenarios.
Import Js Eff Policy Spec Webhook ImageHost MediaFallback Scenario.

(** The platform takes the image: its result is the result. *)
Lemma primary_answer_on_chart :
  run (env_of fine_answers) 0 ∅
    (@sendMediaFeishuWithFallback demo_platform cfg_hook "oc_1" chart)
  = {| trace := [Ev (SendMediaFeishu "oc_1" chart)];
       final_registry := ∅;
       result := inr sent_by_api |}.
Proof.
  exact (@primary_answer_is_final demo_platform cfg_hook "oc_1" chart
           [("oc_1", hook)] "oc_1" (env_of fine_answers) 0 ∅
           eq_refl eq_refl ltac:(discriminate) I).
Defined.

(** The quota scenario: the notice is the seventh call, the webhook takes
    it, and nothing follows. *)
Lemma accepted_post_on_chart :
  (@nil event) = []
  /\ exists chatId,
       @normalizeFeishuTarget demo_platform "oc_1" = Some chatId
       /\ result (run (env_of quota_answers) 0 ∅
                    (@sendMediaFeishuWithFallback demo_platform cfg_hook
                       "oc_1" chart))
          = inr (webhook_sent chatId).
Proof.
  apply (@accepted_post_ends_the_run demo_platform cfg_hook "oc_1" chart
           (env_of quota_answers) 0 ∅
           [Ev (SendMediaFeishu "oc_1" chart);
            Ev (ExistsSync chart);
            Ev (ReadFileSync chart);
            Ev (UploadImageFeishu "image-bytes");
            Ev (Fetch catbox_endpoint (POST_FORM (catbox_form "image-bytes")));
            Ev (Fetch zerox0_endpoint (POST_FORM (zerox0_form "image-bytes")))]
           (text_post hook (limited_prefix +:+ chart)) [] hook).
  - reflexivity.
  - now eexists.
  - reflexivity.
Defined.

(** The quota scenario returns: the last call is a POST the webhook took. *)
Lemma return_means_delivered_on_chart :
  let o := run (env_of quota_answers) 0 ∅
             (@sendMediaFeishuWithFallback demo_platform cfg_hook "oc_1" chart) in
  exists feishuCfg chatId webhookUrl tr ev,
    @channels_feishu demo_platform cfg_hook = Some feishuCfg
    /\ @normalizeFeishuTarget demo_platform "oc_1" = Some chatId
    /\ @resolveWebhookUrl demo_platform feishuCfg chatId = Some webhookUrl
    /\ Webhook.isQuotaError quota_error = true
    /\ webhook_sent "oc_1" = webhook_sent chatId
    /\ trace o = tr ++ [ev]
    /\ is_post_to webhookUrl ev
    /\ answered_ok (env_of quota_answers) (0 + length tr) ev = true.
Proof.
  exact (@return_means_delivered demo_platform cfg_hook "oc_1" chart
           (env_of quota_answers) 0 ∅ quota_error (webhook_sent "oc_1")
           eq_refl eq_refl).
Defined.

(** The URL 0x0.st gave, trimmed, begins with the secure scheme. *)
Lemma hosted_url_on_padded_body :
  startsWith "https://" "https://0x0.st/abc.png" = true
  /\ @None string = None.
Proof.
  exact (hosted_url_is_https "image-bytes" (env_of padded_answers) 0 ∅
           {| url := "https://0x0.st/abc.png"; deleteUrl := None |} eq_refl).
Defined.

(** A camera file name in upper case. *)
Lemma upper_case_jpg_is_image : isImage "/tmp/IMG_1.JPG" = true.
Proof.
  exact (isImage_any_case "/tmp/IMG_" "1"%char "JPG" ltac:(discriminate)
           ltac:(simpl; tauto)).
Defined.

(** The text path is down: the request stops after the text. *)
Lemma text_failure_on_hello :
  run (env_of text_down_answers) 0 ∅
    (@Outbound.sendMedia demo_platform cfg_hook "oc_1" (Some "hello")
       (Some chart))
  = {| trace := [Ev (SendMessageFeishuWithFallback "oc_1" "hello")];
       final_registry := ∅;
       result := inl (mkError "socket hang up") |}.
Proof.
  exact (@text_failure_stops_request demo_platform cfg_hook "oc_1" "hello"
           (Some chart) (env_of text_down_answers) 0 ∅
           (mkError "socket hang up") eq_refl eq_refl).
Defined.

(** No channel configuration: the media chain throws before any call, and
    the link goes out through the text path. *)
Lemma media_failure_on_missing_configuration :
  let o := run (env_of fine_answers) 0 ∅
             (@Outbound.sendMedia demo_platform cfg_none "oc_1" None
                (Some chart)) in
  trace o
  = [] ++ [Ev (SendMessageFeishuWithFallback "oc_1"
                 (Outbound.link_prefix +:+ chart))]
  /\ result o = inr (Outbound.feishu_result sent_by_api).
Proof.
  exact (@media_failure_degrades_to_link demo_platform cfg_none "oc_1" None
           chart (env_of fine_answers) 0 ∅ eq_refl ltac:(discriminate)).
Defined.

(** A request with nothing in it. *)
Lemma empty_request_on_nothing :
  @Outbound.sendMedia demo_platform cfg_hook "oc_1" None None
  = @Outbound.sendText demo_platform cfg_hook "oc_1" EmptyString.
Proof.
  exact (@empty_request_is_sendText demo_platform cfg_hook "oc_1" None None
           eq_refl eq_refl).
Defined.

(** The reaction is refused for a reason other than quota. *)
Lemma no_acknowledgment_on_denied :
  run (env_of denied_answers) 0 ∅
    (@Typing.addTypingIndicator demo_platform cfg_hook "om_7" (Some "oc_1"))
  = {| trace := [Ev (ReactionCreate "om_7" Typing.TYPING_EMOJI)];
       final_registry := ∅;
       result := inr (Typing.no_reaction "om_7") |}.
Proof.
  exact (@no_acknowledgment_without_quota_and_webhook demo_platform cfg_hook
           [("oc_1", hook)] "om_7" (Some "oc_1") (env_of denied_answers) 0 ∅
           (mkError "permission denied")
           (not_elem_of_empty (C:=gset string) "om_7")
           eq_refl eq_refl (or_introl eq_refl)).
Defined.

(** No channel configuration: no call from either operation. *)
Lemma typing_on_missing_configuration :
  run (env_of fine_answers) 0 ∅
    (@Typing.addTypingIndicator demo_platform cfg_none "om_7" (Some "oc_1"))
  = {| trace := []; final_registry := ∅;
       result := inr (Typing.no_reaction "om_7") |}
  /\ run (env_of fine_answers) 0 ∅
       (@Typing.removeTypingIndicator demo_platform cfg_none
          {| Typing.messageId := "om_7";
             Typing.reactionId := Some "reaction_1";
             Typing.usedWebhook := None |})
     = {| trace := []; final_registry := ∅; result := inr tt |}.
Proof.
  exact (@typing_needs_configuration demo_platform cfg_none "om_7"
           (Some "oc_1")
           {| Typing.messageId := "om_7";
              Typing.reactionId := Some "reaction_1";
              Typing.usedWebhook := None |}
           (env_of fine_answers) 0 ∅ eq_refl).
Defined.

(** The HOME directory of the scenarios has no dollar sign in it. *)
Lemma filePath_on_home_bot :
  @filePath demo_platform "~/a.png" = "/home/bot/a.png".
Proof.
  apply (proj1 (@filePath_resolution demo_platform) "/a.png" "/home/bot");
    [reflexivity|].
  intros C. apply includes_iff in C. discriminate.
Defined.

(** [trim] strips the white space of Unicode, not only that of ASCII. *)
Example trim_strips_no_break_space :
  trim (nbsp +:+ " https://0x0.st/abc.png" +:+ nbsp +:+ String "010" nbsp)
  = "https://0x0.st/abc.png".
Proof. reflexivity. Qed.

(** 0x0.st answers with no-break spaces around the URL: the multiplexer
    returns the URL. *)
Example nbsp_padded_url_is_returned :
  result (run (env_of nbsp_answers) 0 ∅ (uploadImageToHost "image-bytes"))
  = inr {| url := "https://0x0.st/abc.png"; deleteUrl := None |}.
Proof. reflexivity. Qed.

(** A text that is one no-break space is blank: with the text path down,
    the request goes straight to the media and succeeds. *)
Example blank_unicode_text_is_not_sent :
  run (env_of text_down_answers) 0 ∅
    (@Outbound.sendMedia demo_platform cfg_hook "oc_1" (Some nbsp)
       (Some chart))
  = {| trace := [Ev (SendMediaFeishu "oc_1" chart)];
       final_registry := ∅;
       result := inr (Outbound.feishu_result sent_by_api) |}.
Proof. reflexivity. Qed.

End MoreScenarios.
